(** * Exploration recommendations batch job

    A shallow embedding of
    [core/jobs/batch_jobs/exp_recommendation_computation_jobs.py]:
    the [ComputeSimilarity] generator, the grouping, ranking and slicing
    steps, the creation of the recommendation models and the summary
    result of [ComputeExplorationRecommendationsJob.run].

    Modelling choices.
    - A PCollection is the list of its elements.  Beam fixes neither the
      order of a PCollection nor the order of the values inside a group;
      [run] takes the order in which the elements are produced, which
      is what an in-memory runner working on one bundle does, and [run_on]
      takes the runner as a parameter: the order of the groups and of
      their values, and the number of times a failed bundle is run again.
    - Similarity scores are Python floats.  The pipeline only compares
      them ([>=] against the threshold, and the ordering used by
      [sorted]); a finite float is a rational number, and on finite floats
      these comparisons are those of the rationals, so a score is a [Q].
      Infinite and not-a-number scores are outside the model.
    - The context manager [get_ndb_context] around the loop of [process]
      and around the construction of a model neither yields nor catches
      anything; it is left out.
    - The generator [process] is run to completion: its behaviour is the
      trace of its events (scorer calls and yields) together with the way
      it ends (exhausted, or an exception raised inside it).
    - The module globals [MAX_RECOMMENDATIONS] and
      [SIMILARITY_SCORE_THRESHOLD] are looked up when a function runs, so
      the functions take the module's global namespace as an argument;
      [module_globals] holds the values the module binds them to. *)

From Stdlib Require Import QArith.
From stdpp Require Import gmap strings list sorting pretty.

Local Open Scope string_scope.
Local Open Scope list_scope.

(** ** Data *)

(** [exp_models.ExpSummaryModel] is declared outside this file.  The job
    reads its [id]; every other field is only handed to the scorer. *)
Record ExpSummaryModel := {
  summary_id : string;
  summary_fields : list (string * string)
}.

(** The dictionary [{'similarity_score': ..., 'exp_id': ...}]. *)
Record Similarity := {
  similarity_score : Q;
  exp_id : string
}.

(** [recommendations_models.ExplorationRecommendationsModel], with the two
    timestamps that [update_timestamps] sets. *)
Record ExplorationRecommendationsModel := {
  model_id : string;
  recommended_exploration_ids : list string;
  created_on : option Z;
  last_updated : option Z
}.

(** [job_run_result.JobRunResult]. *)
Record JobRunResult := {
  stdout : string;
  stderr : string
}.

(** A Python exception, kept opaque. *)
Definition exn := string.

(** The global namespace of the module. *)
Record Globals := {
  MAX_RECOMMENDATIONS : nat;
  SIMILARITY_SCORE_THRESHOLD : Q
}.

Definition module_globals : Globals :=
  {| MAX_RECOMMENDATIONS := 10; SIMILARITY_SCORE_THRESHOLD := 3 |}.

(** ** Effects: traces of events, and exceptions *)

Inductive event :=
  | ScorerCall (ref compared : ExpSummaryModel)
  | Yield (key : string) (value : Similarity).

(** A computation produces a trace of events and either raises or
    returns. *)
Definition M (A : Type) : Type := list event * (exn + A).

Global Instance M_ret : MRet M := λ A (a : A), ([], inr a).

Global Instance M_bind : MBind M := λ A B (f : A → M B) (m : M A),
  match m with
  | (t, inl e) => (t, inl e)
  | (t, inr a) => let '(t', r) := f a in (t ++ t', r)
  end.

Definition yield (key : string) (value : Similarity) : M unit :=
  ([Yield key value], inr tt).

(** [for x in xs: body x]. *)
Fixpoint for_each {A} (xs : list A) (body : A → M unit) : M unit :=
  match xs with
  | [] => mret tt
  | x :: xs' => body x ;; for_each xs' body
  end.

Definition trace {A} (m : M A) : list event := m.1.
Definition outcome {A} (m : M A) : exn + A := m.2.

(** The pairs yielded along a trace, in order. *)
Fixpoint yields (t : list event) : list (string * Similarity) :=
  match t with
  | [] => []
  | Yield k v :: t' => (k, v) :: yields t'
  | ScorerCall _ _ :: t' => yields t'
  end.

(** The scorer calls along a trace, in order. *)
Fixpoint scorer_calls (t : list event)
  : list (ExpSummaryModel * ExpSummaryModel) :=
  match t with
  | [] => []
  | ScorerCall r c :: t' => (r, c) :: scorer_calls t'
  | Yield _ _ :: t' => scorer_calls t'
  end.

(** ** Beam and Python primitives *)

(** [sorted(xs, reverse=True, key=...)] on similarity scores: a stable
    sort into descending order.  With [reverse=True] Python still keeps
    elements with equal keys in their original order. *)
Fixpoint insert_descending (x : Similarity) (l : list Similarity)
  : list Similarity :=
  match l with
  | [] => [x]
  | y :: l' =>
      if Qle_bool (similarity_score y) (similarity_score x)
      then x :: y :: l'
      else y :: insert_descending x l'
  end.

Definition sorted_reverse (l : list Similarity) : list Similarity :=
  foldr insert_descending [] l.

(** The values emitted under key [k], in emission order. *)
Definition values_for {V} (k : string) (kvs : list (string * V)) : list V :=
  snd <$> filter (λ kv, kv.1 = k) kvs.

(** [beam.GroupByKey()]: one group per key that occurs. *)
Definition GroupByKey {V} (kvs : list (string * V))
  : list (string * list V) :=
  (λ k, (k, values_for k kvs)) <$> remove_dups (fst <$> kvs).

(** [beam.combiners.Count.Globally()]: a single element, also for an empty
    input. *)
Definition Count_Globally {A} (pcoll : list A) : list nat := [length pcoll].

(** Modelled from the spec: [update_timestamps] of the base model class
    is not part of the sources; the record is stamped with
    creation/update metadata, here the current time. *)
Definition update_timestamps (now : Z) (m : ExplorationRecommendationsModel)
  : ExplorationRecommendationsModel :=
  {| model_id := model_id m;
     recommended_exploration_ids := recommended_exploration_ids m;
     created_on := Some (default now (created_on m));
     last_updated := Some now |}.

(** Modelled from the spec: [ndb_io.PutModels] is not part of the sources;
    it is a bulk upsert by id, a record with the same id is replaced
    wholesale. *)
Definition PutModels (models : list ExplorationRecommendationsModel)
    (datastore : gmap string ExplorationRecommendationsModel)
  : gmap string ExplorationRecommendationsModel :=
  foldl (λ db m, <[model_id m := m]> db) datastore models.

(** What [run] hands to the runner: the models given to [PutModels] and
    the PCollection of results it returns. *)
Record RunOutput := {
  exp_recommendations_models : list ExplorationRecommendationsModel;
  job_run_results : list JobRunResult
}.

(** ** The job *)

Section Job.
(** [recommendations_services.get_item_similarity], declared outside
    this file: it returns a score or raises. *)
Variable get_item_similarity :
  ExpSummaryModel → ExpSummaryModel → exn + Q.
Variable globals : Globals.
(** The time at which the record of a given exploration is stamped. *)
Variable utcnow : string → Z.

Definition call_scorer (ref compared : ExpSummaryModel) : M Q :=
  ([ScorerCall ref compared], get_item_similarity ref compared).

(** [ComputeSimilarity.process]. *)
Definition process (ref_exp_summary_model : ExpSummaryModel)
    (compared_exp_summary_models : list ExpSummaryModel) : M unit :=
  for_each compared_exp_summary_models (λ compared_exp_summary_model,
    if String.eqb (summary_id compared_exp_summary_model)
                  (summary_id ref_exp_summary_model)
    then mret tt
    else
      similarity_score ← call_scorer ref_exp_summary_model
                                      compared_exp_summary_model ;
      if Qle_bool (SIMILARITY_SCORE_THRESHOLD globals) similarity_score
      then yield (summary_id ref_exp_summary_model)
             {| similarity_score := similarity_score;
                exp_id := summary_id compared_exp_summary_model |}
      else mret tt).

(** [beam.ParDo(ComputeSimilarity(), side_input)]: [process] runs on
    every element; an exception in one of them fails the pipeline. *)
Definition ParDo_ComputeSimilarity (pcoll side_input : list ExpSummaryModel)
  : M unit :=
  for_each pcoll (λ ref, process ref side_input).

(** [_sort_and_slice_similarities]. *)
Definition _sort_and_slice_similarities (similarities : list Similarity)
  : list string :=
  let sorted_similarities := sorted_reverse similarities in
  take (MAX_RECOMMENDATIONS globals) (exp_id <$> sorted_similarities).

(** [_create_recommendation]. *)
Definition _create_recommendation (exp_id : string)
    (recommended_exp_ids : list string) : ExplorationRecommendationsModel :=
  let exp_recommendation_model :=
    {| model_id := exp_id;
       recommended_exploration_ids := recommended_exp_ids;
       created_on := None;
       last_updated := None |} in
  update_timestamps (utcnow exp_id) exp_recommendation_model.

(** [ComputeExplorationRecommendationsJob.run], on the snapshot that
    [GetModels] reads. *)
Definition run (exp_summary_models : list ExpSummaryModel) : M RunOutput :=
  let exp_summary_iter := exp_summary_models in
  let computed :=
    ParDo_ComputeSimilarity exp_summary_models exp_summary_iter in
  computed ;;
  let exp_recommendations_models :=
    (λ '(exp_id, recommended), _create_recommendation exp_id recommended)
    <$> ((λ '(exp_id, similarities),
            (exp_id, _sort_and_slice_similarities similarities))
    <$> GroupByKey (yields (trace computed))) in
  mret {| exp_recommendations_models := exp_recommendations_models;
         job_run_results :=
           (λ x, {| stdout := "SUCCESS " +:+ pretty x; stderr := "" |})
           <$> filter (λ x, 0 < x)
                 (Count_Globally exp_recommendations_models) |}.

(** The datastore after a run that did not fail. *)
Definition datastore_after (out : RunOutput)
    (datastore : gmap string ExplorationRecommendationsModel)
  : gmap string ExplorationRecommendationsModel :=
  PutModels (exp_recommendations_models out) datastore.
End Job.

(** ** Notions used to state the properties of the job *)

Section Notions.
Variable get_item_similarity :
  ExpSummaryModel → ExpSummaryModel → exn + Q.
Variable globals : Globals.

(** The score of [compared] against [ref] passes test [p]: the scorer
    returns a score, and [p] holds of it. *)
Definition score_satisfies (p : Q → bool)
    (ref compared : ExpSummaryModel) : bool :=
  match get_item_similarity ref compared with
  | inr s => p s
  | inl _ => false
  end.

(** [compared] is a qualifying candidate for [ref]: another exploration
    whose score reaches the threshold. *)
Definition qualifies (ref compared : ExpSummaryModel) : bool :=
  negb (String.eqb (summary_id compared) (summary_id ref)) &&
  score_satisfies (Qle_bool (SIMILARITY_SCORE_THRESHOLD globals))
    ref compared.

(** The pair that comparing [ref] with [compared] emits, if any. *)
Definition emitted_pair (ref compared : ExpSummaryModel)
  : option (string * Similarity) :=
  if qualifies ref compared then
    match get_item_similarity ref compared with
    | inr s => Some (summary_id ref,
                     {| similarity_score := s;
                        exp_id := summary_id compared |})
    | inl _ => None
    end
  else None.

End Notions.

(** A scorer call compares two explorations with different ids. *)
Definition proper_call (ev : event) : Prop :=
  match ev with
  | ScorerCall r c => summary_id r ≠ summary_id c
  | Yield _ _ => True
  end.


(** What identifies a recommendation record: its id and its ordered list. *)
Definition record_content (m : ExplorationRecommendationsModel)
  : string * list string :=
  (model_id m, recommended_exploration_ids m).

(** Descending order of scores. *)
Definition score_ge (a b : Similarity) : Prop :=
  (similarity_score b <= similarity_score a)%Q.


(** ** A small corpus *)

Definition exploration (i : string) : ExpSummaryModel :=
  {| summary_id := i; summary_fields := [] |}.

Definition scenario_snapshot : list ExpSummaryModel :=
  exploration <$> ["A"; "B"; "C"; "D"].

(** Against A the scores are B: 5, C: 2, D: 6; every other score is 1. *)
Definition scenario_scorer (ref compared : ExpSummaryModel) : exn + Q :=
  if String.eqb (summary_id ref) "A" then
    if String.eqb (summary_id compared) "B" then inr 5%Q
    else if String.eqb (summary_id compared) "C" then inr 2%Q
    else if String.eqb (summary_id compared) "D" then inr 6%Q
    else inr 1%Q
  else inr 1%Q.

(** The same scorer, but comparing B with C raises. *)
Definition failing_scorer (ref compared : ExpSummaryModel) : exn + Q :=
  if String.eqb (summary_id ref) "B" && String.eqb (summary_id compared) "C"
  then inl "ValueError"
  else scenario_scorer ref compared.

Definition scenario_clock : string → Z := λ _, 0%Z.

Definition scenario_record : ExplorationRecommendationsModel :=
  {| model_id := "A";
     recommended_exploration_ids := ["D"; "B"];
     created_on := Some 0%Z;
     last_updated := Some 0%Z |}.

Definition scenario_output : RunOutput :=
  {| exp_recommendations_models := [scenario_record];
     job_run_results := [{| stdout := "SUCCESS 1"; stderr := "" |}] |}.

Definition scenario_trace : list event :=
  trace (run scenario_scorer module_globals scenario_clock scenario_snapshot).

(** ** Notions used for further properties of the job *)

(** The comparisons of a pass over a snapshot: every ordered pair of
    explorations with different ids, reference first, in snapshot order. *)
Definition comparisons_of (ref : ExpSummaryModel)
    (side_input : list ExpSummaryModel)
  : list (ExpSummaryModel * ExpSummaryModel) :=
  (λ c, (ref, c)) <$> filter (λ c, summary_id c ≠ summary_id ref) side_input.

Definition comparisons (snapshot : list ExpSummaryModel)
  : list (ExpSummaryModel * ExpSummaryModel) :=
  mjoin ((λ ref, comparisons_of ref snapshot) <$> snapshot).

(** What holds of every pair that the comparison step yields: the key is
    the id of a reference of the snapshot, the recommended id is the id of
    another exploration of the snapshot, and the score is the one the
    scorer returned for the two, at least the threshold. *)
Definition sound_pair
    (get_item_similarity : ExpSummaryModel → ExpSummaryModel → exn + Q)
    (globals : Globals) (snapshot : list ExpSummaryModel)
    (key : string) (value : Similarity) : Prop :=
  key ≠ exp_id value ∧
  (SIMILARITY_SCORE_THRESHOLD globals <= similarity_score value)%Q ∧
  ∃ ref c, ref ∈ snapshot ∧ c ∈ snapshot ∧
           summary_id ref = key ∧ summary_id c = exp_id value ∧
           get_item_similarity ref c = inr (similarity_score value).

(** A scorer call that returned. *)
Definition returned_call
    (get_item_similarity : ExpSummaryModel → ExpSummaryModel → exn + Q)
    (ev : event) : Prop :=
  match ev with
  | ScorerCall r c => ∃ s, get_item_similarity r c = inr s
  | Yield _ _ => True
  end.

(** ** The reader controller

    From [core/controllers/reader.py]: the existence check behind the
    exploration pages, the page handler, and the handler that selects the
    recommendations shown at the end of an exploration.  A handler is a
    function from what it reads of the request to its response; the
    services it calls are declared outside this file and are parameters.
    The access-control decorator of the handlers is declared outside this
    file; the handlers below are the methods as written, and the decorated
    handlers further down take the decorator as a parameter.

    [request.get] gives the empty string for a parameter that is absent;
    [normalized_request.get] gives [None].  Conditions on such values are
    Python truth tests: the empty string and [None] are false. *)

Definition str_truthy (s : string) : bool := negb (String.eqb s "").

Definition opt_str_truthy (s : option string) : bool :=
  match s with
  | Some s => str_truthy s
  | None => false
  end.

(** The ways a handler ends: it renders a value, redirects, raises the
    handler's [PageNotFoundException], or lets another exception through. *)
Inductive response (A : Type) : Type :=
  | Rendered (value : A)
  | Redirected (url : string)
  | PageNotFoundException
  | Uncaught (e : exn).
Global Arguments Rendered {A} value.
Global Arguments Redirected {A} url.
Global Arguments PageNotFoundException {A}.
Global Arguments Uncaught {A} e.

Definition MAX_SYSTEM_RECOMMENDATIONS : nat := 4.

Section ExplorationPage.
Variables Exploration Collection : Type.
(** [exp_fetchers.get_exploration_by_id(id, strict=False, version=v)]. *)
Variable get_exploration_by_id : string → option Z → option Exploration.
(** [collection_services.get_collection_by_id(id, strict=False)]. *)
Variable get_collection_by_id : string → option Collection.

(** [_does_exploration_exist]. *)
Definition _does_exploration_exist (exploration_id : string)
    (version : option Z) (collection_id : option string) : bool :=
  let exploration := get_exploration_by_id exploration_id version in
  match exploration with
  | None => false
  | Some _ =>
      match collection_id with
      | Some cid =>
          if str_truthy cid then
            let collection := get_collection_by_id cid in
            match collection with
            | None => false
            | Some _ => true
            end
          else true
      | None => true
      end
  end.

(** [ExplorationPage.get], on the normalized request arguments [v],
    [iframed], [parent] and [collection_id]. *)
Definition ExplorationPage_get (exploration_id : string)
    (v : option Z) (iframed : option bool)
    (parent collection_id : option string) : response string :=
  let version := v in
  if default false iframed then
    let redirect_url := "/embed/exploration/" +:+ exploration_id in
    let redirect_url :=
      match version with
      | Some z => if bool_decide (z = 0%Z) then redirect_url
                  else redirect_url +:+ "?v=" +:+ pretty z
      | None => redirect_url
      end in
    Redirected redirect_url
  else
    let collection_id :=
      if opt_str_truthy parent then None else collection_id in
    if negb (_does_exploration_exist exploration_id version collection_id)
    then PageNotFoundException
    else Rendered "exploration-player-page.mainpage.html".
End ExplorationPage.

Section RecommendationsHandler.
Variable Collection : Type.
(** [json.loads] on the parameter [stringified_author_recommended_ids]:
    it raises, or returns the decoded list of ids.  Parameters that decode
    to anything but a list of strings are outside the model. *)
Variable json_loads : string → exn + list string.
(** [collection_services.get_next_exploration_id_to_complete_by_user]. *)
Variable get_next_exploration_id_to_complete_by_user :
  string → string → exn + option string.
(** [collection_services.get_collection_by_id(id)], which raises when there
    is no such collection, and the collection's
    [get_next_exploration_id_in_sequence]. *)
Variable get_collection_by_id : string → exn + Collection.
Variable get_next_exploration_id_in_sequence :
  Collection → string → exn + option string.
(** [recommendations_services.get_exploration_recommendations]. *)
Variable get_exploration_recommendations : string → list string.
(** The random choice: [random.sample(population, k)] returns [k] items
    from [k] different positions of the population, that is the first [k]
    items of some rearrangement of it. *)
Variable random_shuffle : list string → list string.

Definition random_sample (population : list string) (k : nat) : list string :=
  take k (random_shuffle population).

(** The last part of [RecommendationsHandler.get]: the set handed to the
    summary service. *)
Definition recommended_set (author_recommended_exp_ids
    system_recommended_exp_ids : list string) (next_exp_id : option string)
  : gset string :=
  let recommended_exp_ids : gset string :=
    list_to_set (author_recommended_exp_ids ++ system_recommended_exp_ids) in
  match next_exp_id with
  | Some next => recommended_exp_ids ∪ {[ next ]}
  | None => recommended_exp_ids
  end.

(** [RecommendationsHandler.get]; the rendered value is the set of ids
    that the handler hands to the summary service, whose answer it
    renders. *)
Definition RecommendationsHandler_get (user_id : option string)
    (exploration_id collection_id include_system_recommendations
       stringified_author_recommended_ids : string)
  : response (gset string) :=
  match json_loads stringified_author_recommended_ids with
  | inl _ => PageNotFoundException
  | inr author_recommended_exp_ids =>
      if str_truthy collection_id then
        if opt_str_truthy user_id then
          match get_next_exploration_id_to_complete_by_user
                  (default "" user_id) collection_id with
          | inl e => Uncaught e
          | inr next_exp_id =>
              Rendered (recommended_set author_recommended_exp_ids []
                          next_exp_id)
          end
        else
          match get_collection_by_id collection_id with
          | inl e => Uncaught e
          | inr collection =>
              match get_next_exploration_id_in_sequence
                      collection exploration_id with
              | inl e => Uncaught e
              | inr next_exp_id =>
                  Rendered (recommended_set author_recommended_exp_ids
                              [] next_exp_id)
              end
          end
      else if str_truthy include_system_recommendations then
        let system_chosen_exp_ids :=
          get_exploration_recommendations exploration_id in
        let filtered_exp_ids :=
          elements (list_to_set system_chosen_exp_ids ∖
                    list_to_set author_recommended_exp_ids : gset string) in
        let system_recommended_exp_ids :=
          random_sample filtered_exp_ids
            (MAX_SYSTEM_RECOMMENDATIONS `min` length filtered_exp_ids) in
        Rendered (recommended_set author_recommended_exp_ids
                    system_recommended_exp_ids None)
      else
        Rendered (recommended_set author_recommended_exp_ids [] None)
  end.
End RecommendationsHandler.

(** Modelled from the spec:
    [recommendations_services.get_exploration_recommendations] is not part
    of the sources; it is the read side of the recommendation store: the
    list of the record stored under the id, and no recommendation when
    there is no record. *)
Definition stored_exploration_recommendations
    (datastore : gmap string ExplorationRecommendationsModel)
    (exp_id : string) : list string :=
  match datastore !! exp_id with
  | Some m => recommended_exploration_ids m
  | None => []
  end.

(** A request in the small corpus: an anonymous learner at the end of
    exploration A, with no author recommendation, and the store as the
    job left it. *)
Definition scenario_json_loads (s : string) : exn + list string :=
  if String.eqb s "[]" then inr [] else inl "JSONDecodeError".

Definition scenario_datastore
  : gmap string ExplorationRecommendationsModel :=
  datastore_after scenario_output ∅.

Definition scenario_handler
    (get_exploration_recommendations : string → list string)
    (random_shuffle : list string → list string)
    (collection_id include_system_recommendations : string)
  : response (gset string) :=
  RecommendationsHandler_get unit scenario_json_loads
    (λ _ _, inr None) (λ _, inr tt) (λ _ _, inr None)
    get_exploration_recommendations random_shuffle
    None "A" collection_id include_system_recommendations "[]".





(** ** Runners

    Beam leaves three things to the runner that executes the pipeline:
    the order in which [GroupByKey] hands over the groups, the order of
    the values inside a group, and what is done with a bundle in which
    [process] raised: a runner may run the bundle again a number of times
    before it fails the pipeline, and it drops what a failed attempt
    yielded.  As in [run], the snapshot is one bundle whose elements are
    processed in order. *)

Record Runner := {
  (** the order in which the groups are handed over, from their keys *)
  group_order : list string → list string;
  (** the order in which the values of the group of a key arrive *)
  arrival_order : string → list Similarity → list Similarity;
  (** how many more times a bundle that failed is run *)
  retries : nat
}.

(** A runner neither loses nor invents a group or a value. *)
Definition lawful (r : Runner) : Prop :=
  (∀ keys, group_order r keys ≡ₚ keys) ∧
  (∀ key values, arrival_order r key values ≡ₚ values).

(** The runner that [run] stands for: everything in the order of
    emission, and a bundle that failed fails the pipeline at once. *)
Definition in_order_runner : Runner :=
  {| group_order := λ keys, keys;
     arrival_order := λ _ values, values;
     retries := 0 |}.

(** [beam.GroupByKey()] on a runner. *)
Definition GroupByKey_on (r : Runner) (kvs : list (string * Similarity))
  : list (string * list Similarity) :=
  (λ k, (k, arrival_order r k (values_for k kvs)))
  <$> group_order r (remove_dups (fst <$> kvs)).

(** A bundle on a runner that runs a bundle that failed [n] more times:
    the events of every attempt happen, the outcome is that of the last
    attempt. *)
Fixpoint retried {A} (n : nat) (bundle : M A) : M A :=
  match outcome bundle, n with
  | inl _, S n' =>
      let again := retried n' bundle in
      (trace bundle ++ trace again, outcome again)
  | _, _ => bundle
  end.

Section RunOn.
Variable get_item_similarity :
  ExpSummaryModel → ExpSummaryModel → exn + Q.
Variable globals : Globals.
Variable utcnow : string → Z.
Variable runner : Runner.

(** [ComputeExplorationRecommendationsJob.run] on a runner.  The groups
    are made of what the attempt that did not fail yielded. *)
Definition run_on (exp_summary_models : list ExpSummaryModel) : M RunOutput :=
  let exp_summary_iter := exp_summary_models in
  let computed :=
    ParDo_ComputeSimilarity get_item_similarity globals
      exp_summary_models exp_summary_iter in
  retried (retries runner) computed ;;
  let exp_recommendations_models :=
    (λ '(exp_id, recommended),
       _create_recommendation utcnow exp_id recommended)
    <$> ((λ '(exp_id, similarities),
            (exp_id, _sort_and_slice_similarities globals similarities))
    <$> GroupByKey_on runner (yields (trace computed))) in
  mret {| exp_recommendations_models := exp_recommendations_models;
         job_run_results :=
           (λ x, {| stdout := "SUCCESS " +:+ pretty x; stderr := "" |})
           <$> filter (λ x, 0 < x)
                 (Count_Globally exp_recommendations_models) |}.

(** The pairs of a pass over a snapshot in which no comparison raises,
    and among them the candidates of the references with id [k], in the
    order of emission. *)
Definition emitted (snapshot : list ExpSummaryModel)
  : list (string * Similarity) :=
  mjoin ((λ ref, omap (emitted_pair get_item_similarity globals ref) snapshot)
         <$> snapshot).

Definition candidates (snapshot : list ExpSummaryModel) (k : string)
  : list Similarity :=
  values_for k (emitted snapshot).
End RunOn.

(** Whether two similarities are the same dictionary can be decided. *)
Global Instance Q_eq_dec : EqDecision Q.
Proof. solve_decision. Defined.

Global Instance Similarity_eq_dec : EqDecision Similarity.
Proof. solve_decision. Defined.

(** How many entries of a group have a higher score than [a]. *)
Definition higher_scored (a : Similarity) (l : list Similarity) : nat :=
  length (filter (λ c, negb (Qle_bool (similarity_score c)
                                      (similarity_score a))) l).

(** A tie that decides the list made from a group when at most [K]
    entries are kept: two different entries with the same score, of which
    one can stand among the first [K], fewer than [K] entries having a
    higher score. *)
Definition tie_within (K : nat) (l : list Similarity) : Prop :=
  ∃ a b, a ∈ l ∧ b ∈ l ∧ a ≠ b ∧
         (similarity_score a == similarity_score b)%Q ∧
         higher_scored a l < K.

(** Three explorations that all score 5 against each other, a runner
    that hands over the values of a group in the opposite order, and a
    runner that runs a bundle four times before it gives up. *)
Definition tied_snapshot : list ExpSummaryModel :=
  exploration <$> ["A"; "B"; "C"].

Definition tied_scorer (ref compared : ExpSummaryModel) : exn + Q :=
  inr 5%Q.

Definition reversing_runner : Runner :=
  {| group_order := λ keys, keys;
     arrival_order := λ _ values, reverse values;
     retries := 0 |}.

Definition four_attempts_runner : Runner :=
  {| group_order := λ keys, keys;
     arrival_order := λ _ values, values;
     retries := 3 |}.

(** ** The access decorator of the handlers

    [ExplorationPage.get] and [RecommendationsHandler.get] are wrapped by
    [acl_decorators.can_play_exploration], declared outside this file:
    the decorator is given the method and answers the request, by calling
    the method or in another way.  The decorated handlers take the
    decorator as a parameter. *)

Section Decorated.
Variables Exploration Collection : Type.
Variable can_play_exploration :
  ∀ A, (string → response A) → string → response A.

(** The decorator hands the request for [exploration_id] to the method
    and answers with what the method answers. *)
Definition lets_through {A} (method : string → response A)
    (exploration_id : string) : Prop :=
  can_play_exploration A method exploration_id = method exploration_id.

(** [ExplorationPage.get] as the class binds it. *)
Definition ExplorationPage_get_decorated
    (get_exploration_by_id : string → option Z → option Exploration)
    (get_collection_by_id : string → option Collection)
    (exploration_id : string) (v : option Z) (iframed : option bool)
    (parent collection_id : option string) : response string :=
  can_play_exploration string
    (λ exploration_id,
       ExplorationPage_get Exploration Collection get_exploration_by_id
         get_collection_by_id exploration_id v iframed parent collection_id)
    exploration_id.

(** [RecommendationsHandler.get] as the class binds it. *)
Definition RecommendationsHandler_get_decorated
    (json_loads : string → exn + list string)
    (get_next_exploration_id_to_complete_by_user :
       string → string → exn + option string)
    (get_collection_by_id : string → exn + Collection)
    (get_next_exploration_id_in_sequence :
       Collection → string → exn + option string)
    (get_exploration_recommendations : string → list string)
    (random_shuffle : list string → list string)
    (user_id : option string)
    (exploration_id collection_id include_system_recommendations
       stringified_author_recommended_ids : string)
  : response (gset string) :=
  can_play_exploration (gset string)
    (λ exploration_id,
       RecommendationsHandler_get Collection json_loads
         get_next_exploration_id_to_complete_by_user get_collection_by_id
         get_next_exploration_id_in_sequence get_exploration_recommendations
         random_shuffle user_id exploration_id collection_id
         include_system_recommendations stringified_author_recommended_ids)
    exploration_id.
End Decorated.

(** A decorator that lets every request through. *)
Definition permissive_decorator (A : Type)
    (method : string → response A) : string → response A :=
  method.

(** A request for exploration A, which exists at every version, outside
    any collection. *)
Definition scenario_page
    (can_play_exploration : ∀ A, (string → response A) → string → response A)
    (iframed : option bool) : response string :=
  ExplorationPage_get_decorated unit unit can_play_exploration
    (λ i _, if String.eqb i "A" then Some tt else None) (λ _, None)
    "A" None iframed None None.

(** ** Computations and their traces *)

Lemma bind_returns {A B} (m : M A) (f : A → M B) t a :
  m = (t, inr a) → m ≫= f = (t ++ trace (f a), outcome (f a)).
Proof. intros ->. unfold mbind, M_bind, trace, outcome. by destruct (f a). Qed.

Lemma bind_raises {A B} (m : M A) (f : A → M B) t e :
  m = (t, inl e) → m ≫= f = (t, inl e).
Proof. by intros ->. Qed.

Lemma for_each_cons {A} (x : A) xs body :
  for_each (x :: xs) body = (body x ;; for_each xs body).
Proof. done. Qed.

(** A loop that ends normally ran every body to its end. *)
Lemma for_each_returns {A} (xs : list A) body t u :
  for_each xs body = (t, inr u) ↔
  Forall (λ x, outcome (body x) = inr tt) xs ∧
  t = mjoin ((λ x, trace (body x)) <$> xs).
Proof.
  revert t. induction xs as [|x xs IH]; intros t.
  - cbn. unfold mret, M_ret. destruct u. split.
    + intros [= <-]. by split.
    + by intros [_ ->].
  - rewrite for_each_cons, Forall_cons. cbn [fmap list_fmap mjoin list_join].
    destruct (body x) as [tx [e|[]]] eqn:Hx.
    + rewrite (bind_raises _ _ _ _ eq_refl). split; [done|].
      by intros [[? _] _].
    + rewrite (bind_returns _ _ _ _ eq_refl).
      destruct (for_each xs body) as [t' o'] eqn:Hxs.
      unfold trace, outcome; cbn. split.
      * intros [= <- ->]. destruct u.
        destruct (proj1 (IH t') eq_refl) as [? ->]. done.
      * intros [[_ Hall] ->]. destruct u.
        pose proof (proj2 (IH _) (conj Hall eq_refl)) as [= -> ->]. done.
Qed.

(** A loop that raises stopped in the first body that raised. *)
Lemma for_each_raises {A} (xs : list A) body t e :
  for_each xs body = (t, inl e) →
  ∃ pre x post tx,
    xs = pre ++ x :: post ∧
    Forall (λ x, outcome (body x) = inr tt) pre ∧
    body x = (tx, inl e) ∧
    t = mjoin ((λ x, trace (body x)) <$> pre) ++ tx.
Proof.
  revert t. induction xs as [|x xs IH]; intros t; [done|].
  rewrite for_each_cons.
  destruct (body x) as [tx [e'|[]]] eqn:Hx.
  - rewrite (bind_raises _ _ _ _ eq_refl). intros [= <- <-].
    exists [], x, xs, tx. by repeat split.
  - rewrite (bind_returns _ _ _ _ eq_refl).
    destruct (for_each xs body) as [t' o'] eqn:Hxs.
    unfold trace, outcome; cbn. intros [= <- ->].
    destruct (IH _ eq_refl) as (pre & y & post & ty & -> & Hpre & Hy & ->).
    exists (x :: pre), y, post, ty. repeat split; try done.
    + constructor; [by rewrite Hx|done].
    + cbn. rewrite Hx. cbn. by rewrite (assoc_L (++)).
Qed.

(** Whatever happens, the events of a loop are events of its bodies. *)
Lemma for_each_trace_Forall {A} (P : event → Prop) (xs : list A) body :
  (∀ x, x ∈ xs → Forall P (trace (body x))) →
  Forall P (trace (for_each xs body)).
Proof.
  induction xs as [|x xs IH]; intros H; [by constructor|].
  rewrite for_each_cons.
  pose proof (H x ltac:(left)) as Hx.
  destruct (body x) as [tx [e'|[]]] eqn:Hb.
  - by rewrite (bind_raises _ _ _ _ eq_refl).
  - rewrite (bind_returns _ _ _ _ eq_refl). unfold trace at 1; cbn.
    apply Forall_app; split; [done|]. apply IH. intros y Hy. apply H. by right.
Qed.

Lemma yields_app t1 t2 : yields (t1 ++ t2) = yields t1 ++ yields t2.
Proof.
  induction t1 as [|[] t1 IH]; cbn; [done|done|]. by rewrite IH.
Qed.

Lemma yields_mjoin ts : yields (mjoin ts) = mjoin (yields <$> ts).
Proof.
  induction ts as [|t ts IH]; [done|].
  change (yields (t ++ mjoin ts) = yields t ++ mjoin (yields <$> ts)).
  by rewrite yields_app, IH.
Qed.

(** ** Comparing scores *)

Lemma Qle_bool_false a b : Qle_bool a b = false ↔ (b < a)%Q.
Proof.
  split.
  - intros H. apply Qnot_le_lt. intros Hle.
    apply Qle_bool_iff in Hle. congruence.
  - intros H. destruct (Qle_bool a b) eqn:E; [|done].
    apply Qle_bool_iff in E. by apply Qlt_not_le in H.
Qed.

Lemma Qle_bool_true a b : Qle_bool a b = true ↔ (a <= b)%Q.
Proof. apply Qle_bool_iff. Qed.

Lemma filter_none {A} (P : A → Prop) `{∀ x, Decision (P x)} (l : list A) :
  Forall (λ x, ¬ P x) l → filter P l = [].
Proof.
  induction 1 as [|x l Hx _ IH]; [done|]. by rewrite filter_cons_False.
Qed.

(** ** [sorted(..., reverse=True)] *)

(** Where [insert_descending] puts the new element: behind the entries
    with a strictly higher score that lead the list. *)
Lemma insert_descending_split x l :
  ∃ l1 l2, l = l1 ++ l2 ∧ insert_descending x l = l1 ++ x :: l2 ∧
    Forall (λ y, (similarity_score x < similarity_score y)%Q) l1 ∧
    (∀ y, head l2 = Some y → (similarity_score y <= similarity_score x)%Q).
Proof.
  induction l as [|y l IH].
  - exists [], []. by repeat split.
  - cbn. destruct (Qle_bool _ _) eqn:E.
    + exists [], (y :: l). repeat split; [done|].
      intros ? [= <-]. by apply Qle_bool_true.
    + destruct IH as (l1 & l2 & -> & -> & H1 & H2).
      exists (y :: l1), l2. repeat split; [|done].
      constructor; [by apply Qle_bool_false|done].
Qed.

Lemma insert_descending_perm x l : insert_descending x l ≡ₚ x :: l.
Proof.
  destruct (insert_descending_split x l) as (l1 & l2 & -> & -> & _).
  by rewrite Permutation_middle.
Qed.

Lemma sorted_reverse_perm l : sorted_reverse l ≡ₚ l.
Proof.
  induction l as [|x l IH]; [done|]. cbn.
  by rewrite insert_descending_perm, IH.
Qed.

Lemma insert_descending_sorted x l :
  StronglySorted score_ge l → StronglySorted score_ge (insert_descending x l).
Proof.
  intros Hl.
  destruct (insert_descending_split x l) as (l1 & l2 & -> & -> & H1 & H2).
  apply StronglySorted_app in Hl as (H12 & Hl1 & Hl2).
  apply StronglySorted_app. repeat split; [|done|].
  - intros a b Ha Hb. apply elem_of_cons in Hb as [->|Hb]; [|by apply H12].
    rewrite Forall_forall in H1. apply Qlt_le_weak. by apply H1.
  - constructor; [done|]. destruct l2 as [|y l2]; [done|].
    specialize (H2 y eq_refl).
    apply StronglySorted_cons in Hl2 as [Hy _].
    constructor; [done|].
    eapply Forall_impl; [exact Hy|]. intros z Hz. unfold score_ge in *.
    by apply Qle_trans with (similarity_score y).
Qed.

Lemma sorted_reverse_sorted l : StronglySorted score_ge (sorted_reverse l).
Proof.
  induction l as [|x l IH]; [constructor|]. by apply insert_descending_sorted.
Qed.



Lemma filter_all {A} (P : A → Prop) `{∀ x, Decision (P x)} (l : list A) :
  Forall P l → filter P l = l.
Proof.
  induction 1 as [|x l Hx _ IH]; [done|]. by rewrite filter_cons_True, IH.
Qed.

(** An element at least as good as [x] is inserted ahead of [x]. *)
Lemma insert_descending_ahead a s1 x s2 :
  Qle_bool (similarity_score x) (similarity_score a) = true →
  ∃ s1', insert_descending a (s1 ++ x :: s2) = s1' ++ x :: s2 ∧
         length s1' = S (length s1).
Proof.
  intros Hxa. induction s1 as [|y s1 IH]; cbn.
  - rewrite Hxa. by exists [a].
  - destruct (Qle_bool (similarity_score y) (similarity_score a)).
    + exists (a :: y :: s1). by cbn.
    + destruct IH as (s1' & -> & Hlen). exists (y :: s1'). cbn. by rewrite Hlen.
Qed.

(** An element strictly worse than [x] is inserted behind [x]. *)
Lemma insert_descending_behind a s1 x s2 :
  Qle_bool (similarity_score x) (similarity_score a) = false →
  Forall (λ y, score_ge y x) s1 →
  insert_descending a (s1 ++ x :: s2) = s1 ++ x :: insert_descending a s2.
Proof.
  intros Hxa Hs1. induction Hs1 as [|y s1 Hy _ IH]; cbn.
  - by rewrite Hxa.
  - assert (Qle_bool (similarity_score y) (similarity_score a) = false) as ->.
    { apply Qle_bool_false. apply Qle_bool_false in Hxa.
      by apply Qlt_le_trans with (similarity_score x). }
    by rewrite IH.
Qed.

(** The position of an entry after sorting: ahead of it stand the
    entries with a higher score and the earlier entries with the same
    score. *)
Lemma sorted_reverse_position l1 x l2 :
  ∃ s1 s2, sorted_reverse (l1 ++ x :: l2) = s1 ++ x :: s2 ∧
    length s1 =
      length (filter (λ d, Qle_bool (similarity_score x) (similarity_score d))
                l1) +
      length (filter (λ d, negb (Qle_bool (similarity_score d)
                                          (similarity_score x))) l2).
Proof.
  induction l1 as [|a l1 IH].
  - cbn [app]. change (sorted_reverse (x :: l2))
      with (insert_descending x (sorted_reverse l2)).
    pose proof (sorted_reverse_sorted l2) as Hsorted.
    destruct (insert_descending_split x (sorted_reverse l2))
      as (s1 & s2 & Heq & -> & H1 & H2).
    exists s1, s2. split; [done|]. rewrite filter_nil. cbn [length plus].
    rewrite <-(sorted_reverse_perm l2), Heq, filter_app, length_app.
    rewrite Heq in Hsorted. apply StronglySorted_app in Hsorted as (_ & _ & Hs2).
    rewrite filter_all, filter_none; [cbn; lia| |].
    + destruct s2 as [|y s2]; [done|]. specialize (H2 y eq_refl).
      apply StronglySorted_cons in Hs2 as [Hy _].
      assert (Forall (λ z, (similarity_score z <= similarity_score x)%Q)
                (y :: s2)) as Hall.
      { constructor; [done|]. eapply Forall_impl; [exact Hy|].
        intros z Hz. by apply Qle_trans with (similarity_score y). }
      eapply Forall_impl; [exact Hall|]. cbn. intros z Hz.
      apply Qle_bool_true in Hz. rewrite Hz. cbn. tauto.
    + eapply Forall_impl; [exact H1|]. cbn. intros z Hz.
      apply Qle_bool_false in Hz. rewrite Hz. by cbn.
  - destruct IH as (s1 & s2 & IH & Hlen).
    change (sorted_reverse ((a :: l1) ++ x :: l2))
      with (insert_descending a (sorted_reverse (l1 ++ x :: l2))).
    pose proof (sorted_reverse_sorted (l1 ++ x :: l2)) as Hsorted.
    rewrite IH in *. rewrite filter_cons.
    destruct (Qle_bool (similarity_score x) (similarity_score a)) eqn:E.
    + destruct (insert_descending_ahead a s1 x s2 E) as (s1' & -> & Hlen').
      exists s1', s2. split; [done|].
      case_decide as Hd; [cbn; lia|by destruct Hd].
    + rewrite insert_descending_behind; [|done|].
      * exists s1, (insert_descending a s2). split; [done|].
        by case_decide.
      * apply StronglySorted_app in Hsorted as (H12 & _ & _).
        apply Forall_forall. intros y Hy. apply H12; [done|]. by left.
Qed.



(** ** The comparison step *)

Section JobFacts.
Context (get_item_similarity : ExpSummaryModel → ExpSummaryModel → exn + Q).
Context (globals : Globals).

Local Abbreviation process := (process get_item_similarity globals).
Local Abbreviation ParDo_ComputeSimilarity :=
  (ParDo_ComputeSimilarity get_item_similarity globals).
Local Abbreviation qualifies := (qualifies get_item_similarity globals).
Local Abbreviation emitted_pair := (emitted_pair get_item_similarity globals).
Local Abbreviation threshold := (SIMILARITY_SCORE_THRESHOLD globals).

Lemma process_nil ref : process ref [] = ([], inr tt).
Proof. done. Qed.

(** The reference itself is skipped. *)
Lemma process_cons_self ref c cs :
  summary_id c = summary_id ref →
  process ref (c :: cs) = process ref cs.
Proof.
  intros Hid. unfold process. rewrite for_each_cons.
  apply String.eqb_eq in Hid. rewrite Hid.
  unfold mret, M_ret, mbind, M_bind. by destruct (for_each _ _).
Qed.

(** A scorer exception ends the generator. *)
Lemma process_cons_raise ref c cs e :
  summary_id c ≠ summary_id ref →
  get_item_similarity ref c = inl e →
  process ref (c :: cs) = ([ScorerCall ref c], inl e).
Proof.
  intros Hid He. unfold process. rewrite for_each_cons.
  apply String.eqb_neq in Hid. rewrite Hid.
  unfold call_scorer, mbind, M_bind. by rewrite He.
Qed.

(** Otherwise the score is tested against the threshold, and the
    loop goes on. *)
Lemma process_cons_score ref c cs s :
  summary_id c ≠ summary_id ref →
  get_item_similarity ref c = inr s →
  process ref (c :: cs) =
    (ScorerCall ref c ::
       (if Qle_bool threshold s
        then [Yield (summary_id ref)
                {| similarity_score := s; exp_id := summary_id c |}]
        else []) ++ trace (process ref cs),
     outcome (process ref cs)).
Proof.
  intros Hid Hs. unfold process. rewrite for_each_cons.
  apply String.eqb_neq in Hid. rewrite Hid.
  unfold call_scorer, yield, mret, M_ret, mbind, M_bind, trace, outcome.
  rewrite Hs. destruct (Qle_bool _ _), (for_each _ _); done.
Qed.

Lemma process_calls_proper ref cs :
  Forall proper_call (trace (process ref cs)).
Proof.
  induction cs as [|c cs IH]; [by constructor|].
  destruct (decide (summary_id c = summary_id ref)) as [Hid|Hid].
  - by rewrite process_cons_self.
  - destruct (get_item_similarity ref c) as [e|s] eqn:Hs.
    + rewrite (process_cons_raise _ _ _ e) by done.
      repeat constructor. cbn. congruence.
    + rewrite (process_cons_score _ _ _ s) by done. unfold trace at 1; cbn.
      constructor; [cbn; congruence|].
      apply Forall_app; split; [|done]. destruct (Qle_bool _ _); by repeat constructor.
Qed.

Lemma emitted_pair_self ref c :
  summary_id c = summary_id ref → emitted_pair ref c = None.
Proof.
  intros Hid%String.eqb_eq. unfold emitted_pair, qualifies.
  by rewrite Hid.
Qed.

Lemma emitted_pair_score ref c s :
  summary_id c ≠ summary_id ref →
  get_item_similarity ref c = inr s →
  emitted_pair ref c =
    if Qle_bool threshold s
    then Some (summary_id ref,
               {| similarity_score := s; exp_id := summary_id c |})
    else None.
Proof.
  intros Hid%String.eqb_neq Hs.
  unfold emitted_pair, qualifies, score_satisfies.
  rewrite Hid, Hs. cbn. by destruct (Qle_bool _ _).
Qed.

(** A generator that is exhausted scored every other exploration and
    yielded the qualifying ones, in the order of the side input. *)
Lemma process_returns ref cs :
  outcome (process ref cs) = inr tt ↔
  ∀ c, c ∈ cs → summary_id c ≠ summary_id ref →
       ∃ s, get_item_similarity ref c = inr s.
Proof.
  induction cs as [|c cs IH].
  - split; [|done]. by intros _ c Hc%elem_of_nil.
  - destruct (decide (summary_id c = summary_id ref)) as [Hid|Hid].
    + rewrite process_cons_self, IH by done. split.
      * intros H d [->|Hd]%elem_of_cons; [done|by apply H].
      * intros H d Hd. apply H. by right.
    + destruct (get_item_similarity ref c) as [e|s] eqn:Hs.
      * rewrite (process_cons_raise _ _ _ e) by done. split; [done|].
        intros H. destruct (H c) as [s Hs']; [by left|done|congruence].
      * rewrite (process_cons_score _ _ _ s) by done.
        unfold outcome at 1; cbn. rewrite IH. split.
        -- intros H d [->|Hd]%elem_of_cons; [by eexists|by apply H].
        -- intros H d Hd. apply H. by right.
Qed.

Lemma process_yields ref cs :
  outcome (process ref cs) = inr tt →
  yields (trace (process ref cs)) = omap (emitted_pair ref) cs.
Proof.
  induction cs as [|c cs IH]; [done|].
  destruct (decide (summary_id c = summary_id ref)) as [Hid|Hid].
  - rewrite process_cons_self by done. intros H. cbn.
    by rewrite emitted_pair_self, IH.
  - destruct (get_item_similarity ref c) as [e|s] eqn:Hs.
    + by rewrite (process_cons_raise _ _ _ e).
    + rewrite (process_cons_score _ _ _ s) by done.
      unfold outcome at 1, trace at 1; cbn. intros H.
      rewrite (emitted_pair_score _ _ s), yields_app, IH by done.
      by destruct (Qle_bool _ _).
Qed.

(** A generator that raises stops at the scorer call that raised:
    that call is its last event. *)
Lemma process_raises ref cs e :
  outcome (process ref cs) = inl e →
  ∃ t c, process ref cs = (t ++ [ScorerCall ref c], inl e) ∧
         c ∈ cs ∧ get_item_similarity ref c = inl e.
Proof.
  induction cs as [|c cs IH]; [done|].
  destruct (decide (summary_id c = summary_id ref)) as [Hid|Hid].
  - rewrite process_cons_self by done. intros H.
    destruct (IH H) as (t & c' & -> & Hc' & He).
    exists t, c'. repeat split; [by right|done].
  - destruct (get_item_similarity ref c) as [e'|s] eqn:Hs.
    + rewrite (process_cons_raise _ _ _ e') by done. intros [= <-].
      exists [], c. repeat split; [by left|done].
    + rewrite (process_cons_score _ _ _ s) by done.
      unfold outcome at 1; cbn. intros H.
      destruct (IH H) as (t & c' & Heq & Hc' & He).
      rewrite Heq. unfold trace, outcome; cbn.
      rewrite (assoc_L (++)), app_comm_cons.
      eexists _, c'. split; [reflexivity|]. split; [by right|done].
Qed.

Lemma pardo_returns pcoll side t :
  ParDo_ComputeSimilarity pcoll side = (t, inr tt) →
  (∀ ref, ref ∈ pcoll → outcome (process ref side) = inr tt) ∧
  yields t = mjoin ((λ ref, omap (emitted_pair ref) side) <$> pcoll).
Proof.
  intros [Hall ->]%for_each_returns. rewrite Forall_forall in Hall.
  split; [done|]. rewrite yields_mjoin, <-list_fmap_compose.
  f_equal. apply Forall_fmap_ext, Forall_forall. intros ref Href. cbn.
  by apply process_yields, Hall.
Qed.

Lemma qualifies_spec ref c :
  qualifies ref c = true ↔
  summary_id c ≠ summary_id ref ∧
  ∃ s, get_item_similarity ref c = inr s ∧ Qle_bool threshold s = true.
Proof.
  unfold qualifies, score_satisfies.
  rewrite andb_true_iff, negb_true_iff, String.eqb_neq.
  destruct (get_item_similarity ref c) as [e|s]; split.
  - by intros [_ ?].
  - by intros [_ (s & ? & _)].
  - intros [? ?]. split; [done|by exists s].
  - intros [? (s' & [= <-] & ?)]. done.
Qed.

Lemma emitted_pair_Some ref c k v :
  emitted_pair ref c = Some (k, v) ↔
  qualifies ref c = true ∧ k = summary_id ref ∧
  exp_id v = summary_id c ∧
  get_item_similarity ref c = inr (similarity_score v).
Proof.
  unfold emitted_pair. destruct (qualifies ref c) eqn:Hq.
  - apply qualifies_spec in Hq as (_ & s & Hs & _). rewrite Hs. split.
    + by intros [= <- <-].
    + intros (_ & -> & Hid & [= ->]). destruct v; cbn in *. by subst.
  - split; [done|]. by intros [? _].
Qed.

Lemma elem_of_emitted ref (side : list ExpSummaryModel) k v :
  (k, v) ∈ omap (emitted_pair ref) side ↔
  ∃ c, c ∈ side ∧ qualifies ref c = true ∧ k = summary_id ref ∧
       exp_id v = summary_id c ∧
       get_item_similarity ref c = inr (similarity_score v).
Proof.
  rewrite list_elem_of_omap. by setoid_rewrite emitted_pair_Some.
Qed.

Lemma values_for_app {V} k (l1 l2 : list (string * V)) :
  values_for k (l1 ++ l2) = values_for k l1 ++ values_for k l2.
Proof. unfold values_for. by rewrite filter_app, fmap_app. Qed.

Lemma values_for_emitted ref (side : list ExpSummaryModel) k :
  values_for k (omap (emitted_pair ref) side) =
  if decide (summary_id ref = k) then (omap (emitted_pair ref) side).*2
  else [].
Proof.
  unfold values_for. case_decide as Hk.
  - rewrite filter_all; [done|]. apply Forall_forall.
    intros [k' v] (c & _ & _ & -> & _)%elem_of_emitted. done.
  - rewrite filter_none; [done|]. apply Forall_forall.
    intros [k' v] (c & _ & _ & -> & _)%elem_of_emitted. done.
Qed.

(** The group of a key gathers what the references with that id
    emitted, in order. *)
Lemma values_for_pardo k (pcoll side : list ExpSummaryModel) :
  values_for k (mjoin ((λ ref, omap (emitted_pair ref) side) <$> pcoll)) =
  mjoin ((λ ref, (omap (emitted_pair ref) side).*2)
         <$> filter (λ ref, summary_id ref = k) pcoll).
Proof.
  induction pcoll as [|ref pcoll IH]; [done|].
  rewrite fmap_cons.
  change (mjoin (?x :: ?l)) with (x ++ mjoin l).
  rewrite values_for_app, IH, values_for_emitted, filter_cons.
  by case_decide.
Qed.

Lemma filter_same_id (l : list ExpSummaryModel) ref :
  NoDup (summary_id <$> l) → ref ∈ l →
  filter (λ r, summary_id r = summary_id ref) l = [ref].
Proof.
  induction l as [|a l IH]; [by intros _ ?%elem_of_nil|].
  rewrite fmap_cons, NoDup_cons, filter_cons.
  intros [Ha Hnd] [->|Hin]%elem_of_cons.
  - rewrite decide_True by done. f_equal. apply filter_none, Forall_forall.
    intros r Hr Heq. apply Ha. rewrite <-Heq. by apply list_elem_of_fmap_2.
  - rewrite decide_False; [by apply IH|].
    intros Heq. apply Ha. rewrite Heq. by apply list_elem_of_fmap_2.
Qed.

(** Ids identify the explorations of a snapshot. *)
Lemma same_id_eq (l : list ExpSummaryModel) a b :
  NoDup (summary_id <$> l) → a ∈ l → b ∈ l →
  summary_id a = summary_id b → a = b.
Proof.
  intros Hnd Ha Hb Heq.
  pose proof (filter_same_id l b Hnd Hb) as Hf.
  assert (a ∈ filter (λ r, summary_id r = summary_id b) l) as Hin
    by by apply list_elem_of_filter.
  rewrite Hf in Hin. by apply list_elem_of_singleton in Hin.
Qed.

Lemma elem_of_values_for {V} k (v : V) (kvs : list (string * V)) :
  v ∈ values_for k kvs ↔ (k, v) ∈ kvs.
Proof.
  unfold values_for. rewrite list_elem_of_fmap. split.
  - intros ([k' v'] & -> & [Hk Hin]%list_elem_of_filter). cbn in *. by subst.
  - intros Hin. exists (k, v). split; [done|]. by apply list_elem_of_filter.
Qed.

Lemma elem_of_sort_and_slice cid sims :
  cid ∈ _sort_and_slice_similarities globals sims →
  ∃ v, v ∈ sims ∧ exp_id v = cid.
Proof.
  unfold _sort_and_slice_similarities.
  intros Hin%subseteq_take.
  apply list_elem_of_fmap in Hin as (v & -> & Hv).
  exists v. split; [|done]. by rewrite <-(sorted_reverse_perm sims).
Qed.

Lemma sort_and_slice_nonempty sims :
  0 < MAX_RECOMMENDATIONS globals → sims ≠ [] →
  _sort_and_slice_similarities globals sims ≠ [].
Proof.
  unfold _sort_and_slice_similarities. intros HK Hne Heq.
  apply (f_equal length) in Heq.
  rewrite length_take, length_fmap, (Permutation_length (sorted_reverse_perm sims))
    in Heq.
  destruct sims; [done|]. cbn in Heq. lia.
Qed.



Lemma emitted_ids_sublist ref (side : list ExpSummaryModel) :
  exp_id <$> (omap (emitted_pair ref) side).*2
  `sublist_of` summary_id <$> side.
Proof.
  induction side as [|c side IH]; [done|]. cbn.
  destruct (emitted_pair ref c) as [[k v]|] eqn:He; cbn.
  - apply emitted_pair_Some in He as (_ & _ & -> & _). by constructor.
  - by constructor.
Qed.

(** ** The pipeline *)

Context (utcnow : string → Z).
Local Abbreviation run := (run get_item_similarity globals utcnow).

Lemma run_inv snapshot t out :
  run snapshot = (t, inr out) →
  ParDo_ComputeSimilarity snapshot snapshot = (t, inr tt) ∧
  exp_recommendations_models out =
    (λ k, _create_recommendation utcnow k
            (_sort_and_slice_similarities globals
               (values_for k (yields t))))
    <$> remove_dups ((yields t).*1) ∧
  job_run_results out =
    (λ x, {| stdout := "SUCCESS " +:+ pretty x; stderr := "" |})
    <$> filter (λ x, 0 < x) [length (exp_recommendations_models out)].
Proof.
  unfold run.
  destruct (ParDo_ComputeSimilarity snapshot snapshot) as [t' [e|[]]] eqn:Hp;
    [done|].
  unfold mbind, M_bind, mret, M_ret, trace; cbn. rewrite app_nil_r.
  intros [= <- <-]. split; [done|]. cbn. split; [|done].
  unfold GroupByKey. by rewrite <-!list_fmap_compose.
Qed.

Lemma run_raises snapshot t e :
  run snapshot = (t, inl e) ↔
  ParDo_ComputeSimilarity snapshot snapshot = (t, inl e).
Proof.
  unfold run.
  destruct (ParDo_ComputeSimilarity snapshot snapshot) as [t' [e'|[]]];
    unfold mbind, M_bind, mret, M_ret; cbn.
  - split; intros; by simplify_eq.
  - split; intros; simplify_eq.
Qed.

Lemma run_trace snapshot :
  trace (run snapshot) = trace (ParDo_ComputeSimilarity snapshot snapshot).
Proof.
  unfold run.
  destruct (ParDo_ComputeSimilarity snapshot snapshot) as [t' [e'|[]]];
    unfold mbind, M_bind, mret, M_ret, trace; cbn; [done|].
  by rewrite app_nil_r.
Qed.

Lemma run_values_for snapshot t out ref :
  run snapshot = (t, inr out) →
  NoDup (summary_id <$> snapshot) → ref ∈ snapshot →
  values_for (summary_id ref) (yields t) =
  (omap (emitted_pair ref) snapshot).*2.
Proof.
  intros (Hp & _)%run_inv Hnd Href.
  apply pardo_returns in Hp as [_ ->].
  rewrite values_for_pardo, filter_same_id by done. cbn.
  by rewrite app_nil_r.
Qed.

(** The keys of the groups: the references with a qualifying
    candidate. *)
Lemma run_keys snapshot t out k :
  run snapshot = (t, inr out) →
  k ∈ (yields t).*1 ↔
  ∃ ref c, ref ∈ snapshot ∧ c ∈ snapshot ∧ summary_id ref = k ∧
           qualifies ref c = true.
Proof.
  intros (Hp & _)%run_inv. apply pardo_returns in Hp as [_ ->].
  rewrite list_elem_of_fmap. split.
  - intros ([k' v] & -> & Hin). cbn.
    apply list_elem_of_join in Hin as (l & Hin & Hl).
    apply list_elem_of_fmap in Hl as (ref & -> & Href).
    apply elem_of_emitted in Hin as (c & Hc & Hq & -> & _).
    by exists ref, c.
  - intros (ref & c & Href & Hc & <- & Hq).
    pose proof Hq as (_ & s & Hs & _)%qualifies_spec.
    exists (summary_id ref,
            {| similarity_score := s; exp_id := summary_id c |}).
    split; [done|]. apply list_elem_of_join.
    exists (omap (emitted_pair ref) snapshot). split.
    + apply elem_of_emitted. by exists c.
    + apply list_elem_of_fmap. by exists ref.
Qed.

Lemma run_model_inv snapshot t out m :
  run snapshot = (t, inr out) →
  m ∈ exp_recommendations_models out ↔
  ∃ k, k ∈ (yields t).*1 ∧
       m = _create_recommendation utcnow k
             (_sort_and_slice_similarities globals
                (values_for k (yields t))).
Proof.
  intros (_ & -> & _)%run_inv. rewrite list_elem_of_fmap.
  split.
  - intros (k & -> & Hk). rewrite elem_of_remove_dups in Hk. by exists k.
  - intros (k & Hk & ->). exists k. by rewrite elem_of_remove_dups.
Qed.

Lemma run_model_ids snapshot t out :
  run snapshot = (t, inr out) →
  model_id <$> exp_recommendations_models out = remove_dups ((yields t).*1).
Proof.
  intros (_ & -> & _)%run_inv. rewrite <-list_fmap_compose.
  apply list_fmap_id.
Qed.

(** Every recommended id belongs to a qualifying candidate of a
    reference that has the id of the record. *)
Lemma run_recommended_inv snapshot t out m cid :
  run snapshot = (t, inr out) →
  m ∈ exp_recommendations_models out →
  cid ∈ recommended_exploration_ids m →
  ∃ ref c, ref ∈ snapshot ∧ c ∈ snapshot ∧
           summary_id ref = model_id m ∧ summary_id c = cid ∧
           qualifies ref c = true.
Proof.
  intros Hrun Hm Hcid. pose proof Hrun as (Hp & _)%run_inv.
  apply (run_model_inv _ _ _ _ Hrun) in Hm as (k & _ & ->). cbn in *.
  apply elem_of_sort_and_slice in Hcid as (v & Hv & <-).
  apply elem_of_values_for in Hv. apply pardo_returns in Hp as [_ Hy].
  rewrite Hy in Hv. apply list_elem_of_join in Hv as (l & Hv & Hl).
  apply list_elem_of_fmap in Hl as (ref & -> & Href).
  apply elem_of_emitted in Hv as (c & Hc & Hq & -> & Hid & _).
  by exists ref, c.
Qed.

(** When no comparison raises, the run returns. *)
Lemma run_returns snapshot :
  (∀ ref c, ref ∈ snapshot → c ∈ snapshot →
            summary_id c ≠ summary_id ref →
            ∃ s, get_item_similarity ref c = inr s) →
  ∃ t out, run snapshot = (t, inr out).
Proof.
  intros Hall.
  assert (∃ t, ParDo_ComputeSimilarity snapshot snapshot = (t, inr tt))
    as [t Ht].
  { eexists. apply for_each_returns. split; [|done].
    apply Forall_forall. intros ref Href. apply process_returns.
    intros c Hc Hid. by apply Hall. }
  unfold run. rewrite Ht. unfold mbind, M_bind, mret, M_ret. by eexists _, _.
Qed.

(** A run that raises stopped at a scorer call that raised. *)
Lemma run_raises_inv snapshot t e :
  run snapshot = (t, inl e) →
  ∃ t' ref c, t = t' ++ [ScorerCall ref c] ∧ ref ∈ snapshot ∧
              c ∈ snapshot ∧ get_item_similarity ref c = inl e.
Proof.
  intros Hp%run_raises.
  apply for_each_raises in Hp as (pre & ref & post & tx & Hs & _ & Hx & ->).
  destruct (process_raises ref snapshot e) as (t' & c & Heq & Hc & He).
  { by rewrite Hx. }
  rewrite Hx in Heq. injection Heq as ->.
  eexists (_ ++ t'), ref, c. rewrite (assoc_L (++)). repeat split; try done.
  rewrite Hs. apply elem_of_app. right. by left.
Qed.

End JobFacts.

(** ** The datastore *)

Lemma upsert_lookup {V} (cs : list (string * V)) (d : gmap string (string * V)) k :
  foldl (λ d c, <[c.1 := c]> d) d cs !! k =
  match last (filter (λ c, c.1 = k) cs) with
  | Some c => Some c
  | None => d !! k
  end.
Proof.
  induction cs as [|c cs IH] using rev_ind; [done|].
  rewrite foldl_snoc, filter_app, filter_cons, filter_nil.
  case_decide as Hk.
  - by rewrite last_snoc, Hk, lookup_insert_eq.
  - by rewrite app_nil_r, lookup_insert_ne.
Qed.

Lemma upsert_idempotent {V} (cs : list (string * V)) (d : gmap string (string * V)) :
  foldl (λ d c, <[c.1 := c]> d) (foldl (λ d c, <[c.1 := c]> d) d cs) cs =
  foldl (λ d c, <[c.1 := c]> d) d cs.
Proof.
  apply map_eq. intros k. rewrite !upsert_lookup.
  by destruct (last _).
Qed.

(** Seen through the content of its records, [PutModels] upserts the
    contents. *)
Lemma PutModels_content models datastore :
  record_content <$> PutModels models datastore =
  foldl (λ d c, <[c.1 := c]> d) (record_content <$> datastore)
    (record_content <$> models).
Proof.
  revert datastore. induction models as [|m models IH]; intros db; [done|].
  change (PutModels (m :: models) db)
    with (PutModels models (<[model_id m := m]> db)).
  rewrite IH, fmap_insert. done.
Qed.

Lemma PutModels_twice models1 models2 datastore :
  record_content <$> models1 = record_content <$> models2 →
  record_content <$> PutModels models2 (PutModels models1 datastore) =
  record_content <$> PutModels models1 datastore.
Proof.
  intros Heq. rewrite !PutModels_content, <-Heq. apply upsert_idempotent.
Qed.

Lemma proper_calls_spec t :
  Forall proper_call t ↔
  ∀ r c, (r, c) ∈ scorer_calls t → summary_id r ≠ summary_id c.
Proof.
  induction t as [|[r c|k v] t IH]; cbn.
  - split; [|by constructor]. by intros _ r c ?%elem_of_nil.
  - rewrite Forall_cons, IH. cbn. split.
    + intros [Hrc H] r' c' [[= -> ->]|Hin]%elem_of_cons; [done|by apply H].
    + intros H. split; [apply H; by left|]. intros r' c' Hin. apply H. by right.
  - rewrite Forall_cons, IH. cbn. tauto.
Qed.

(** * The properties of the job *)





(** C3: in a run that returns, the record produced for an exploration A
    of the snapshot does not contain A's own id, whatever the scorer
    returns. *)
Theorem C3_never_recommends_itself
    (get_item_similarity : ExpSummaryModel → ExpSummaryModel → exn + Q)
    (utcnow : string → Z) (snapshot : list ExpSummaryModel)
    (t : list event) (out : RunOutput)
    (A : ExpSummaryModel) (m : ExplorationRecommendationsModel) :
  run get_item_similarity module_globals utcnow snapshot = (t, inr out) →
  A ∈ snapshot →
  m ∈ exp_recommendations_models out →
  model_id m = summary_id A →
  summary_id A ∉ recommended_exploration_ids m.
Proof.
  intros Hrun _ Hm Hid Hin.
  destruct (run_recommended_inv _ _ _ _ _ _ _ _ Hrun Hm Hin)
    as (ref & c & _ & _ & Href & Hc & Hq).
  apply qualifies_spec in Hq as [Hne _]. congruence.
Qed.

Lemma C3_never_recommends_itself_witness :
  run scenario_scorer module_globals scenario_clock scenario_snapshot =
    (scenario_trace, inr scenario_output) ∧
  exploration "A" ∈ scenario_snapshot ∧
  scenario_record ∈ exp_recommendations_models scenario_output ∧
  model_id scenario_record = summary_id (exploration "A") ∧
  summary_id (exploration "A") ∉ recommended_exploration_ids scenario_record.
Proof.
  split; [vm_compute; reflexivity|].
  split; [by left|]. split; [by left|]. split; [reflexivity|].
  apply (C3_never_recommends_itself scenario_scorer scenario_clock
           scenario_snapshot scenario_trace scenario_output
           (exploration "A") scenario_record).
  - vm_compute; reflexivity.
  - by left.
  - by left.
  - reflexivity.
Defined.

(** C4: in a run that returns, the records have pairwise distinct ids;
    an id has a record exactly when it is the id of a reference of the
    snapshot that has a qualifying candidate (an exploration of the
    snapshot with another id whose score is at least 3.0); and no record
    has an empty list. *)
Theorem C4_one_record_per_reference_with_candidates
    (get_item_similarity : ExpSummaryModel → ExpSummaryModel → exn + Q)
    (utcnow : string → Z) (snapshot : list ExpSummaryModel)
    (t : list event) (out : RunOutput) :
  run get_item_similarity module_globals utcnow snapshot = (t, inr out) →
  NoDup (model_id <$> exp_recommendations_models out) ∧
  (∀ k, k ∈ model_id <$> exp_recommendations_models out ↔
        ∃ ref c s, ref ∈ snapshot ∧ c ∈ snapshot ∧ summary_id ref = k ∧
                   summary_id c ≠ summary_id ref ∧
                   get_item_similarity ref c = inr s ∧ (3 <= s)%Q) ∧
  (∀ m, m ∈ exp_recommendations_models out →
        recommended_exploration_ids m ≠ []).
Proof.
  intros Hrun. rewrite (run_model_ids _ _ _ _ _ _ Hrun).
  split; [apply NoDup_remove_dups|]. split.
  - intros k. rewrite elem_of_remove_dups, (run_keys _ _ _ _ _ _ _ Hrun).
    split.
    + intros (ref & c & Href & Hc & Hk & Hq).
      apply qualifies_spec in Hq as (Hne & s & Hs & Hle).
      exists ref, c, s. repeat split; try done. by apply Qle_bool_true in Hle.
    + intros (ref & c & s & Href & Hc & Hk & Hne & Hs & Hle).
      exists ref, c. repeat split; try done. apply qualifies_spec.
      split; [done|]. exists s. split; [done|]. by apply Qle_bool_true.
  - intros m (k & Hk & ->)%(run_model_inv _ _ _ _ _ _ _ Hrun).
    cbn [_create_recommendation update_timestamps recommended_exploration_ids].
    apply sort_and_slice_nonempty; [cbn; lia|].
    apply list_elem_of_fmap in Hk as ([k' v] & -> & Hin). cbn.
    intros Hnil. apply elem_of_values_for in Hin.
    rewrite Hnil in Hin. by apply elem_of_nil in Hin.
Qed.

Lemma C4_one_record_per_reference_with_candidates_witness :
  run scenario_scorer module_globals scenario_clock scenario_snapshot =
    (scenario_trace, inr scenario_output) ∧
  NoDup (model_id <$> exp_recommendations_models scenario_output) ∧
  (∀ k, k ∈ model_id <$> exp_recommendations_models scenario_output ↔
        ∃ ref c s, ref ∈ scenario_snapshot ∧ c ∈ scenario_snapshot ∧
                   summary_id ref = k ∧
                   summary_id c ≠ summary_id ref ∧
                   scenario_scorer ref c = inr s ∧ (3 <= s)%Q) ∧
  (∀ m, m ∈ exp_recommendations_models scenario_output →
        recommended_exploration_ids m ≠ []).
Proof.
  split; [vm_compute; reflexivity|].
  apply (C4_one_record_per_reference_with_candidates scenario_scorer
           scenario_clock scenario_snapshot scenario_trace scenario_output).
  vm_compute; reflexivity.
Defined.

(** C5: the result of a run has one of three shapes: the run raised; or
    it returned and wrote no record, and then it emits no result and
    leaves the datastore as it was; or it returned and wrote n > 0
    records, and then it emits the single result 'SUCCESS n'.  When the
    scorer returns a score below 3.0 for every pair of explorations of the
    snapshot with different ids, the run is of the second shape: it
    returns, with no record and no result. *)
Theorem C5_result_shapes
    (get_item_similarity : ExpSummaryModel → ExpSummaryModel → exn + Q)
    (utcnow : string → Z) (snapshot : list ExpSummaryModel) :
  match outcome (run get_item_similarity module_globals utcnow snapshot) with
  | inl e => True
  | inr out =>
      let n := length (exp_recommendations_models out) in
      (n = 0 ∧ job_run_results out = [] ∧
       ∀ datastore, datastore_after out datastore = datastore) ∨
      ((0 < n)%nat ∧
       job_run_results out =
         [{| stdout := "SUCCESS " +:+ pretty n; stderr := "" |}])
  end ∧
  ((∀ ref c, ref ∈ snapshot → c ∈ snapshot →
             summary_id c ≠ summary_id ref →
             ∃ s, get_item_similarity ref c = inr s ∧ (s < 3)%Q) →
   outcome (run get_item_similarity module_globals utcnow snapshot) =
     inr {| exp_recommendations_models := []; job_run_results := [] |}).
Proof.
  split.
  - destruct (run _ _ _ _) as [t [e|out]] eqn:Hrun; unfold outcome; cbn;
      [done|].
    apply run_inv in Hrun as (_ & _ & ->).
    destruct (exp_recommendations_models out) as [|m ms] eqn:Hm.
    + left. repeat split. intros db. unfold datastore_after. by rewrite Hm.
    + right. split; [cbn; lia|]. rewrite filter_cons_True by (cbn; lia). done.
  - intros Hbelow.
    destruct (run_returns get_item_similarity module_globals utcnow snapshot)
      as (t & out & Hrun).
    { intros ref c Href Hc Hne.
      destruct (Hbelow ref c Href Hc Hne) as (s & Hs & _). by exists s. }
    rewrite Hrun. unfold outcome; cbn. f_equal.
    assert ((yields t).*1 = []) as Hkeys.
    { destruct ((yields t).*1) as [|k ks] eqn:Hk; [done|].
      assert (k ∈ (yields t).*1) as Hin by (rewrite Hk; by left).
      apply (run_keys _ _ _ _ _ _ _ Hrun) in Hin
        as (ref & c & Href & Hc & _ & Hq).
      apply qualifies_spec in Hq as (Hne & s & Hs & Hle).
      destruct (Hbelow ref c Href Hc Hne) as (s' & Hs' & Hlt).
      assert (s' = s) as -> by congruence.
      apply Qle_bool_true in Hle. by apply Qlt_not_le in Hlt. }
    apply run_inv in Hrun as (_ & Hm & Hr). rewrite Hkeys in Hm. cbn in Hm.
    rewrite Hm in Hr. cbn in Hr. destruct out; cbn in *. by subst.
Qed.

Lemma C5_result_shapes_witness :
  (∀ ref c, ref ∈ scenario_snapshot → c ∈ scenario_snapshot →
            summary_id c ≠ summary_id ref →
            ∃ s, (λ _ _ : ExpSummaryModel, @inr exn Q 1%Q) ref c = inr s ∧
                 (s < 3)%Q) ∧
  outcome (run (λ _ _, inr 1%Q) module_globals scenario_clock
             scenario_snapshot) =
    inr {| exp_recommendations_models := []; job_run_results := [] |}.
Proof.
  assert (∀ ref c, ref ∈ scenario_snapshot → c ∈ scenario_snapshot →
            summary_id c ≠ summary_id ref →
            ∃ s, (λ _ _ : ExpSummaryModel, @inr exn Q 1%Q) ref c = inr s ∧
                 (s < 3)%Q) as Hbelow.
  { intros ref c _ _ _. exists 1%Q. by split. }
  split; [exact Hbelow|].
  exact (proj2 (C5_result_shapes (λ _ _, inr 1%Q) scenario_clock
                  scenario_snapshot) Hbelow).
Defined.

(** C6: for the snapshot A, B, C, D with score(A,B) = 5, score(A,C) = 2
    and score(A,D) = 6, every other score being below the threshold, with
    threshold 3.0 and a maximum of 2 recommendations (or more, as the
    module's 10), the run returns and its only record is the one of A,
    with the list [D, B]. *)
Theorem C6_scenario_record_for_A
    (get_item_similarity : ExpSummaryModel → ExpSummaryModel → exn + Q)
    (utcnow : string → Z) (max_recommendations : nat) :
  let A := exploration "A" in
  let B := exploration "B" in
  let C := exploration "C" in
  let D := exploration "D" in
  let globals := {| MAX_RECOMMENDATIONS := max_recommendations;
                    SIMILARITY_SCORE_THRESHOLD := 3 |} in
  (2 ≤ max_recommendations)%nat →
  get_item_similarity A B = inr 5%Q →
  get_item_similarity A C = inr 2%Q →
  get_item_similarity A D = inr 6%Q →
  (∀ ref c, ref ∈ [B; C; D] → c ∈ [A; B; C; D] →
            summary_id c ≠ summary_id ref →
            ∃ s, get_item_similarity ref c = inr s ∧ (s < 3)%Q) →
  ∃ t out,
    run get_item_similarity globals utcnow [A; B; C; D] = (t, inr out) ∧
    record_content <$> exp_recommendations_models out = [("A", ["D"; "B"])].
Proof.
  intros A B C D globals HK HAB HAC HAD Hothers.
  assert (∀ ref, ref ∈ [B; C; D] →
            omap (emitted_pair get_item_similarity globals ref) [A; B; C; D]
            = []) as Hnone.
  { intros ref Href.
    assert (∀ c, c ∈ [A; B; C; D] →
              emitted_pair get_item_similarity globals ref c = None) as Hc.
    { intros c Hc.
      destruct (decide (summary_id c = summary_id ref)) as [Heq|Hne].
      - by apply emitted_pair_self.
      - destruct (Hothers ref c Href Hc Hne) as (s & Hs & Hlt).
        rewrite (emitted_pair_score _ _ _ _ s) by done.
        apply Qle_bool_false in Hlt. cbn. by rewrite Hlt. }
    cbn. rewrite !Hc; [done|solve [repeat first [left|right]]..]. }
  destruct (run_returns get_item_similarity globals utcnow [A; B; C; D])
    as (t & out & Hrun).
  { intros ref c [->|Href]%elem_of_cons Hc Hne.
    - rewrite !elem_of_cons, elem_of_nil in Hc.
      destruct Hc as [->|[->|[->|[->|[]]]]]; [done|by eexists..].
    - destruct (Hothers ref c Href Hc Hne) as (s & Hs & _). by exists s. }
  exists t, out. split; [done|].
  pose proof Hrun as (Hp & -> & _)%run_inv.
  apply pardo_returns in Hp as [_ ->].
  cbn [fmap list_fmap mjoin list_join].
  rewrite (Hnone B), (Hnone C), (Hnone D)
    by solve [repeat first [left|right]].
  assert (omap (emitted_pair get_item_similarity globals A) [A; B; C; D] =
          [("A", {| similarity_score := 5; exp_id := "B" |});
           ("A", {| similarity_score := 6; exp_id := "D" |})]) as ->.
  { cbn [omap list_omap]. rewrite emitted_pair_self by done.
    rewrite (emitted_pair_score _ _ A B 5), (emitted_pair_score _ _ A C 2),
      (emitted_pair_score _ _ A D 6) by done.
    reflexivity. }
  destruct max_recommendations as [|[|K]]; [lia..|]. vm_compute. by destruct K.
Qed.

Lemma C6_scenario_record_for_A_witness :
  (2 ≤ 2)%nat ∧
  scenario_scorer (exploration "A") (exploration "B") = inr 5%Q ∧
  scenario_scorer (exploration "A") (exploration "C") = inr 2%Q ∧
  scenario_scorer (exploration "A") (exploration "D") = inr 6%Q ∧
  (∀ ref c, ref ∈ [exploration "B"; exploration "C"; exploration "D"] →
            c ∈ scenario_snapshot →
            summary_id c ≠ summary_id ref →
            ∃ s, scenario_scorer ref c = inr s ∧ (s < 3)%Q) ∧
  ∃ t out,
    run scenario_scorer
      {| MAX_RECOMMENDATIONS := 2; SIMILARITY_SCORE_THRESHOLD := 3 |}
      scenario_clock scenario_snapshot = (t, inr out) ∧
    record_content <$> exp_recommendations_models out = [("A", ["D"; "B"])].
Proof.
  assert (∀ ref c, ref ∈ [exploration "B"; exploration "C"; exploration "D"] →
            c ∈ scenario_snapshot →
            summary_id c ≠ summary_id ref →
            ∃ s, scenario_scorer ref c = inr s ∧ (s < 3)%Q) as Hothers.
  { intros ref c Href _ _. exists 1%Q. split; [|reflexivity].
    rewrite !elem_of_cons, elem_of_nil in Href.
    by destruct Href as [->|[->|[->|[]]]]. }
  split; [lia|]. split; [reflexivity|]. split; [reflexivity|].
  split; [reflexivity|]. split; [exact Hothers|].
  apply (C6_scenario_record_for_A scenario_scorer scenario_clock 2);
    [lia|reflexivity..|exact Hothers].
Defined.

(** C9: whether the run returns or raises, every call of the scorer made
    during the run compares a reference with an exploration whose id is
    different: the comparison of an exploration with itself is skipped
    before the scorer is called. *)
Theorem C9_scorer_never_called_on_same_id
    (get_item_similarity : ExpSummaryModel → ExpSummaryModel → exn + Q)
    (utcnow : string → Z) (snapshot : list ExpSummaryModel)
    (ref compared : ExpSummaryModel) :
  (ref, compared) ∈
    scorer_calls
      (trace (run get_item_similarity module_globals utcnow snapshot)) →
  summary_id ref ≠ summary_id compared.
Proof.
  revert ref compared. apply proper_calls_spec.
  rewrite run_trace. apply for_each_trace_Forall.
  intros ref _. apply process_calls_proper.
Qed.

Lemma C9_scorer_never_called_on_same_id_witness :
  (exploration "A", exploration "B") ∈
    scorer_calls
      (trace (run scenario_scorer module_globals scenario_clock
                scenario_snapshot)) ∧
  summary_id (exploration "A") ≠ summary_id (exploration "B").
Proof.
  split; [by left|].
  apply (C9_scorer_never_called_on_same_id scenario_scorer scenario_clock
           scenario_snapshot (exploration "A") (exploration "B")).
  by left.
Defined.

(** C10: in a run that returns, every id in the list of a record is the
    id of an exploration of the snapshot, and differs from the id of the
    record; if the ids of the snapshot are pairwise distinct, the list has
    no duplicates. *)
Theorem C10_recommended_ids_from_snapshot
    (get_item_similarity : ExpSummaryModel → ExpSummaryModel → exn + Q)
    (utcnow : string → Z) (snapshot : list ExpSummaryModel)
    (t : list event) (out : RunOutput) (m : ExplorationRecommendationsModel) :
  run get_item_similarity module_globals utcnow snapshot = (t, inr out) →
  m ∈ exp_recommendations_models out →
  (∀ cid, cid ∈ recommended_exploration_ids m →
     cid ≠ model_id m ∧
     ∃ c, c ∈ snapshot ∧ summary_id c = cid) ∧
  (NoDup (summary_id <$> snapshot) →
   NoDup (recommended_exploration_ids m)).
Proof.
  intros Hrun Hm. split.
  - intros cid Hin.
    destruct (run_recommended_inv _ _ _ _ _ _ _ _ Hrun Hm Hin)
      as (ref & c & _ & Hc & Href & Hcid & Hq).
    apply qualifies_spec in Hq as [Hne _].
    split; [congruence|by exists c].
  - intros Hnd.
    pose proof Hm as (k & Hk & ->)%(run_model_inv _ _ _ _ _ _ _ Hrun). cbn.
    apply (run_keys _ _ _ _ _ _ _ Hrun) in Hk as (ref & _ & Href & _ & <- & _).
    rewrite (run_values_for _ _ _ _ _ _ _ Hrun Hnd Href).
    unfold _sort_and_slice_similarities.
    eapply sublist_NoDup; [|apply sublist_take].
    rewrite sorted_reverse_perm.
    eapply sublist_NoDup; [exact Hnd|apply emitted_ids_sublist].
Qed.

Lemma C10_recommended_ids_from_snapshot_witness :
  run scenario_scorer module_globals scenario_clock scenario_snapshot =
    (scenario_trace, inr scenario_output) ∧
  scenario_record ∈ exp_recommendations_models scenario_output ∧
  (∀ cid, cid ∈ recommended_exploration_ids scenario_record →
     cid ≠ model_id scenario_record ∧
     ∃ c, c ∈ scenario_snapshot ∧ summary_id c = cid) ∧
  (NoDup (summary_id <$> scenario_snapshot) →
   NoDup (recommended_exploration_ids scenario_record)).
Proof.
  split; [vm_compute; reflexivity|]. split; [by left|].
  apply (C10_recommended_ids_from_snapshot scenario_scorer scenario_clock
           scenario_snapshot scenario_trace scenario_output scenario_record).
  - vm_compute; reflexivity.
  - by left.
Defined.

(** * Further properties of the job *)

Lemma scorer_calls_app t1 t2 :
  scorer_calls (t1 ++ t2) = scorer_calls t1 ++ scorer_calls t2.
Proof.
  induction t1 as [|[] t1 IH]; cbn; [done| |done]. by rewrite IH.
Qed.

Lemma scorer_calls_mjoin ts :
  scorer_calls (mjoin ts) = mjoin (scorer_calls <$> ts).
Proof.
  induction ts as [|t ts IH]; [done|].
  change (scorer_calls (t ++ mjoin ts) =
          scorer_calls t ++ mjoin (scorer_calls <$> ts)).
  by rewrite scorer_calls_app, IH.
Qed.

Section Calls.
Context (get_item_similarity : ExpSummaryModel → ExpSummaryModel → exn + Q).
Context (globals : Globals).

Local Abbreviation process := (process get_item_similarity globals).

(** The generator scores the other explorations in the order of the side
    input, and stops at the first call that raises. *)
Lemma process_calls_prefix ref cs :
  scorer_calls (trace (process ref cs)) `prefix_of` comparisons_of ref cs.
Proof.
  unfold comparisons_of. induction cs as [|c cs IH]; [done|].
  destruct (decide (summary_id c = summary_id ref)) as [Hid|Hid].
  - rewrite process_cons_self, filter_cons_False by tauto. done.
  - rewrite filter_cons_True, fmap_cons by done.
    destruct (get_item_similarity ref c) as [e|s] eqn:Hs.
    + rewrite (process_cons_raise _ _ _ _ _ e) by done. cbn.
      apply prefix_cons, prefix_nil.
    + rewrite (process_cons_score _ _ _ _ _ s) by done.
      unfold trace at 1; cbn. apply prefix_cons.
      rewrite scorer_calls_app.
      by destruct (Qle_bool _ _).
Qed.

Lemma process_calls_returns ref cs :
  outcome (process ref cs) = inr tt →
  scorer_calls (trace (process ref cs)) = comparisons_of ref cs.
Proof.
  unfold comparisons_of. induction cs as [|c cs IH]; [done|].
  destruct (decide (summary_id c = summary_id ref)) as [Hid|Hid].
  - rewrite process_cons_self, filter_cons_False by tauto. done.
  - rewrite filter_cons_True, fmap_cons by done.
    destruct (get_item_similarity ref c) as [e|s] eqn:Hs.
    + by rewrite (process_cons_raise _ _ _ _ _ e).
    + rewrite (process_cons_score _ _ _ _ _ s) by done.
      unfold trace at 1, outcome at 1; cbn. intros Hok.
      rewrite scorer_calls_app, IH by done.
      by destruct (Qle_bool _ _).
Qed.

Lemma pardo_calls_returns pcoll side t :
  ParDo_ComputeSimilarity get_item_similarity globals pcoll side
    = (t, inr tt) →
  scorer_calls t = mjoin ((λ ref, comparisons_of ref side) <$> pcoll).
Proof.
  intros [Hall ->]%for_each_returns. rewrite Forall_forall in Hall.
  rewrite scorer_calls_mjoin, <-list_fmap_compose. f_equal.
  apply Forall_fmap_ext, Forall_forall. intros ref Href. cbn.
  by apply process_calls_returns, Hall.
Qed.

Lemma pardo_calls_prefix pcoll side :
  scorer_calls
    (trace (ParDo_ComputeSimilarity get_item_similarity globals pcoll side))
  `prefix_of` mjoin ((λ ref, comparisons_of ref side) <$> pcoll).
Proof.
  destruct (ParDo_ComputeSimilarity _ _ pcoll side) as [t [e|[]]] eqn:Hp.
  - apply for_each_raises in Hp as (pre & x & post & tx & -> & Hpre & Hx & ->).
    unfold trace; cbn. rewrite scorer_calls_app, scorer_calls_mjoin.
    rewrite fmap_app, fmap_cons, join_app, <-list_fmap_compose.
    rewrite (proj1 (Forall_fmap_ext _ (λ ref, comparisons_of ref side) pre)).
    2:{ eapply Forall_impl; [exact Hpre|].
        intros ref Href. by apply process_calls_returns. }
    apply prefix_app.
    change (mjoin (?a :: ?l)) with (a ++ mjoin l).
    apply prefix_app_r.
    pose proof (process_calls_prefix x side) as Hpx. by rewrite Hx in Hpx.
  - apply pardo_calls_returns in Hp. unfold trace; cbn. by rewrite Hp.
Qed.

Lemma comparisons_of_length (snapshot : list ExpSummaryModel) ref :
  NoDup (summary_id <$> snapshot) → ref ∈ snapshot →
  length (comparisons_of ref snapshot) = length snapshot - 1.
Proof.
  intros Hnd Href. unfold comparisons_of. rewrite length_fmap.
  pose proof (filter_app_complement
                (λ c, summary_id c = summary_id ref) snapshot) as Hperm.
  apply Permutation_length in Hperm.
  rewrite length_app, (filter_same_id _ _ Hnd Href) in Hperm. cbn in Hperm.
  lia.
Qed.

Lemma comparisons_length (snapshot : list ExpSummaryModel) :
  NoDup (summary_id <$> snapshot) →
  length (comparisons snapshot) = length snapshot * (length snapshot - 1).
Proof.
  intros Hnd. unfold comparisons.
  rewrite length_join, <-list_fmap_compose.
  rewrite (sum_list_fmap_same (length snapshot - 1)), Nat.mul_comm; [done|].
  apply Forall_forall. intros ref Href. cbn.
  by apply comparisons_of_length.
Qed.
End Calls.



(** X2: a run that returns on n explorations with pairwise distinct ids
    has made exactly n * (n - 1) scorer calls. *)
Theorem X2_number_of_scorer_calls
    (get_item_similarity : ExpSummaryModel → ExpSummaryModel → exn + Q)
    (globals : Globals) (utcnow : string → Z)
    (snapshot : list ExpSummaryModel) (t : list event) (out : RunOutput) :
  NoDup (summary_id <$> snapshot) →
  run get_item_similarity globals utcnow snapshot = (t, inr out) →
  length (scorer_calls t) = length snapshot * (length snapshot - 1).
Proof.
  intros Hnd (Hp & _)%run_inv. apply pardo_calls_returns in Hp.
  rewrite Hp. by apply comparisons_length.
Qed.

Lemma X2_number_of_scorer_calls_witness :
  NoDup (summary_id <$> scenario_snapshot) ∧
  run scenario_scorer module_globals scenario_clock scenario_snapshot =
    (scenario_trace, inr scenario_output) ∧
  length (scorer_calls scenario_trace) = 4 * (4 - 1).
Proof.
  assert (NoDup (summary_id <$> scenario_snapshot)) as Hnd
    by (apply (bool_decide_unpack _); vm_compute; exact I).
  split; [exact Hnd|]. split; [vm_compute; reflexivity|].
  apply (X2_number_of_scorer_calls scenario_scorer module_globals
           scenario_clock scenario_snapshot scenario_trace scenario_output).
  - exact Hnd.
  - vm_compute; reflexivity.
Defined.

Section Counting.
Context (get_item_similarity : ExpSummaryModel → ExpSummaryModel → exn + Q).
Context (globals : Globals).

Local Abbreviation emitted_pair := (emitted_pair get_item_similarity globals).
Local Abbreviation qualifies := (qualifies get_item_similarity globals).

Lemma emitted_pair_qualifies ref c :
  is_Some (emitted_pair ref c) ↔ qualifies ref c = true.
Proof.
  unfold emitted_pair. destruct (qualifies ref c) eqn:Hq.
  - apply qualifies_spec in Hq as (_ & s & -> & _). split; [done|by eexists].
  - split; [by intros [? ?]|done].
Qed.

(** One similarity is emitted per qualifying candidate. *)
Lemma length_emitted ref (l : list ExpSummaryModel) :
  length (omap (emitted_pair ref) l) = length (filter (λ c, qualifies ref c) l).
Proof.
  induction l as [|c l IH]; [done|]. cbn [omap list_omap].
  pose proof (emitted_pair_qualifies ref c) as Hq.
  destruct (emitted_pair ref c) as [p|].
  - rewrite filter_cons_True; [cbn; by rewrite IH|].
    rewrite (proj1 Hq); [done|by eexists].
  - rewrite filter_cons_False; [done|].
    intros Ht%Is_true_true. apply Hq in Ht. by destruct Ht.
Qed.

Lemma existsb_elem_of {A} (f : A → bool) (l : list A) :
  existsb f l = true ↔ ∃ x, x ∈ l ∧ f x = true.
Proof.
  rewrite existsb_exists. by setoid_rewrite list_elem_of_In.
Qed.
End Counting.

(** X4: in a run that returns on a snapshot with pairwise distinct ids,
    the list recorded for a reference holds as many ids as the reference
    has qualifying candidates, up to the maximum and no more: its length
    is the smaller of the two numbers. *)
Theorem X4_list_length_is_min_of_cap_and_candidates
    (get_item_similarity : ExpSummaryModel → ExpSummaryModel → exn + Q)
    (globals : Globals) (utcnow : string → Z)
    (snapshot : list ExpSummaryModel) (t : list event) (out : RunOutput)
    (ref : ExpSummaryModel) (m : ExplorationRecommendationsModel) :
  NoDup (summary_id <$> snapshot) →
  run get_item_similarity globals utcnow snapshot = (t, inr out) →
  ref ∈ snapshot →
  m ∈ exp_recommendations_models out →
  model_id m = summary_id ref →
  length (recommended_exploration_ids m) =
    MAX_RECOMMENDATIONS globals `min`
    length (filter (λ c, qualifies get_item_similarity globals ref c)
              snapshot).
Proof.
  intros Hnd Hrun Href Hm Hid.
  apply (run_model_inv _ _ _ _ _ _ _ Hrun) in Hm as (k & _ & ->).
  cbn in Hid. subst k.
  cbn [_create_recommendation update_timestamps recommended_exploration_ids].
  rewrite (run_values_for _ _ _ _ _ _ _ Hrun Hnd Href).
  unfold _sort_and_slice_similarities.
  rewrite length_take, length_fmap.
  rewrite (Permutation_length (sorted_reverse_perm _)), length_fmap.
  by rewrite length_emitted.
Qed.

Lemma X4_list_length_is_min_of_cap_and_candidates_witness :
  NoDup (summary_id <$> scenario_snapshot) ∧
  run scenario_scorer module_globals scenario_clock scenario_snapshot =
    (scenario_trace, inr scenario_output) ∧
  exploration "A" ∈ scenario_snapshot ∧
  scenario_record ∈ exp_recommendations_models scenario_output ∧
  model_id scenario_record = summary_id (exploration "A") ∧
  length (recommended_exploration_ids scenario_record) =
    MAX_RECOMMENDATIONS module_globals `min`
    length (filter (λ c, qualifies scenario_scorer module_globals
                           (exploration "A") c)
              scenario_snapshot).
Proof.
  assert (NoDup (summary_id <$> scenario_snapshot)) as Hnd
    by (apply (bool_decide_unpack _); vm_compute; exact I).
  split; [exact Hnd|]. split; [vm_compute; reflexivity|].
  split; [by left|]. split; [by left|]. split; [reflexivity|].
  apply (X4_list_length_is_min_of_cap_and_candidates scenario_scorer
           module_globals scenario_clock scenario_snapshot scenario_trace
           scenario_output (exploration "A") scenario_record).
  - exact Hnd.
  - vm_compute; reflexivity.
  - by left.
  - by left.
  - reflexivity.
Defined.

(** X5: in a run that returns on a snapshot with pairwise distinct ids,
    the number of records, which is the count reported in the result, is
    the number of explorations that have at least one qualifying
    candidate. *)
Theorem X5_number_of_records
    (get_item_similarity : ExpSummaryModel → ExpSummaryModel → exn + Q)
    (globals : Globals) (utcnow : string → Z)
    (snapshot : list ExpSummaryModel) (t : list event) (out : RunOutput) :
  NoDup (summary_id <$> snapshot) →
  run get_item_similarity globals utcnow snapshot = (t, inr out) →
  let n := length (filter (λ ref, existsb (qualifies get_item_similarity
                                             globals ref) snapshot)
                     snapshot) in
  length (exp_recommendations_models out) = n ∧
  job_run_results out =
    if decide (n = 0) then []
    else [{| stdout := "SUCCESS " +:+ pretty n; stderr := "" |}].
Proof.
  intros Hnd Hrun n.
  assert (length (exp_recommendations_models out) = n) as Hlen.
  { rewrite <-(length_fmap model_id).
    unfold n. rewrite <-(length_fmap summary_id (filter _ snapshot)).
    apply Permutation_length, NoDup_Permutation.
    - rewrite (run_model_ids _ _ _ _ _ _ Hrun). apply NoDup_remove_dups.
    - eapply sublist_NoDup; [exact Hnd|].
      apply fmap_sublist, sublist_filter.
    - intros k. rewrite (run_model_ids _ _ _ _ _ _ Hrun), elem_of_remove_dups.
      rewrite (run_keys _ _ _ _ _ _ _ Hrun), list_elem_of_fmap. split.
      + intros (ref & c & Href & Hc & <- & Hq). exists ref. split; [done|].
        apply list_elem_of_filter. split; [|done].
        apply Is_true_true, existsb_elem_of. by exists c.
      + intros (ref & -> & [Hex Href]%list_elem_of_filter).
        apply Is_true_true, existsb_elem_of in Hex as (c & Hc & Hq).
        by exists ref, c. }
  split; [done|].
  apply run_inv in Hrun as (_ & _ & ->). rewrite Hlen.
  destruct n as [|n']; [done|]. by rewrite filter_cons_True by (cbn; lia).
Qed.

Lemma X5_number_of_records_witness :
  NoDup (summary_id <$> scenario_snapshot) ∧
  run scenario_scorer module_globals scenario_clock scenario_snapshot =
    (scenario_trace, inr scenario_output) ∧
  length (exp_recommendations_models scenario_output) = 1 ∧
  job_run_results scenario_output =
    [{| stdout := "SUCCESS 1"; stderr := "" |}].
Proof.
  assert (NoDup (summary_id <$> scenario_snapshot)) as Hnd
    by (apply (bool_decide_unpack _); vm_compute; exact I).
  split; [exact Hnd|]. split; [vm_compute; reflexivity|].
  apply (X5_number_of_records scenario_scorer module_globals scenario_clock
           scenario_snapshot scenario_trace scenario_output).
  - exact Hnd.
  - vm_compute; reflexivity.
Defined.

(** ** Sorting again *)

Lemma StronglySorted_with {A} (R : A → A → Prop) (P : A → Prop) (l : list A) :
  Forall P l → StronglySorted R l →
  StronglySorted (λ a b, P a ∧ P b ∧ R a b) l.
Proof.
  intros HP Hs. induction Hs as [|x l _ IH Hx]; [constructor|].
  apply Forall_cons in HP as [Hpx HP]. constructor; [by apply IH|].
  rewrite Forall_forall in Hx, HP |- *. intros y Hy. split; [done|].
  split; [by apply HP|by apply Hx].
Qed.

(** A list that is already in descending order is left as it is. *)
Lemma sorted_reverse_sorted_id l :
  StronglySorted score_ge l → sorted_reverse l = l.
Proof.
  induction 1 as [|x l Hl IH Hx]; [done|].
  change (sorted_reverse (x :: l))
    with (insert_descending x (sorted_reverse l)).
  rewrite IH. destruct l as [|y l]; [done|]. cbn.
  apply Forall_cons in Hx as [Hy _].
  apply Qle_bool_true in Hy. by rewrite Hy.
Qed.

(** X6: when no two similarities of a group have the same score, the
    list computed from the group does not depend on the order in which
    the group arrives. *)
Theorem X6_arrival_order_irrelevant_without_ties
    (globals : Globals) (similarities arrived : list Similarity) :
  arrived ≡ₚ similarities →
  (∀ a b, a ∈ similarities → b ∈ similarities →
          (similarity_score a == similarity_score b)%Q → a = b) →
  _sort_and_slice_similarities globals arrived =
  _sort_and_slice_similarities globals similarities.
Proof.
  intros Hperm Hties. unfold _sort_and_slice_similarities. do 2 f_equal.
  apply (StronglySorted_unique_strong
           (λ a b, a ∈ similarities ∧ b ∈ similarities ∧ score_ge a b)).
  - intros a b _ _ (Ha & Hb & Hab) (_ & _ & Hba).
    apply Hties; [done..|]. by apply Qle_antisym.
  - apply StronglySorted_with; [|apply sorted_reverse_sorted].
    apply Forall_forall. intros a Ha.
    by rewrite sorted_reverse_perm, Hperm in Ha.
  - apply StronglySorted_with; [|apply sorted_reverse_sorted].
    apply Forall_forall. intros a Ha. by rewrite sorted_reverse_perm in Ha.
  - by rewrite !sorted_reverse_perm.
Qed.

Lemma X6_arrival_order_irrelevant_without_ties_witness :
  [ {| similarity_score := 6; exp_id := "D" |};
    {| similarity_score := 5; exp_id := "B" |} ] ≡ₚ
  [ {| similarity_score := 5; exp_id := "B" |};
    {| similarity_score := 6; exp_id := "D" |} ] ∧
  (∀ a b,
     a ∈ [ {| similarity_score := 5; exp_id := "B" |};
           {| similarity_score := 6; exp_id := "D" |} ] →
     b ∈ [ {| similarity_score := 5; exp_id := "B" |};
           {| similarity_score := 6; exp_id := "D" |} ] →
     (similarity_score a == similarity_score b)%Q → a = b) ∧
  _sort_and_slice_similarities module_globals
    [ {| similarity_score := 6; exp_id := "D" |};
      {| similarity_score := 5; exp_id := "B" |} ] =
  _sort_and_slice_similarities module_globals
    [ {| similarity_score := 5; exp_id := "B" |};
      {| similarity_score := 6; exp_id := "D" |} ].
Proof.
  assert (∀ a b,
     a ∈ [ {| similarity_score := 5; exp_id := "B" |};
           {| similarity_score := 6; exp_id := "D" |} ] →
     b ∈ [ {| similarity_score := 5; exp_id := "B" |};
           {| similarity_score := 6; exp_id := "D" |} ] →
     (similarity_score a == similarity_score b)%Q → a = b) as Hties.
  { intros a b Ha Hb.
    rewrite !elem_of_cons, elem_of_nil in Ha, Hb.
    destruct Ha as [->|[->|[]]], Hb as [->|[->|[]]]; cbn;
      first [done | intros H; by vm_compute in H]. }
  split; [apply Permutation_swap|]. split; [exact Hties|].
  apply (X6_arrival_order_irrelevant_without_ties module_globals);
    [apply Permutation_swap|exact Hties].
Defined.

(** X7: a group that arrives already in descending order of score is
    not reordered, also where scores are equal: its list is made of the
    ids of its first entries, up to the maximum. *)
Theorem X7_sorted_group_is_kept
    (globals : Globals) (similarities : list Similarity) :
  StronglySorted score_ge similarities →
  _sort_and_slice_similarities globals similarities =
  take (MAX_RECOMMENDATIONS globals) (exp_id <$> similarities).
Proof.
  intros Hs. unfold _sort_and_slice_similarities.
  by rewrite sorted_reverse_sorted_id.
Qed.

Lemma X7_sorted_group_is_kept_witness :
  StronglySorted score_ge
    [ {| similarity_score := 6; exp_id := "D" |};
      {| similarity_score := 5; exp_id := "B" |};
      {| similarity_score := 5; exp_id := "C" |} ] ∧
  _sort_and_slice_similarities module_globals
    [ {| similarity_score := 6; exp_id := "D" |};
      {| similarity_score := 5; exp_id := "B" |};
      {| similarity_score := 5; exp_id := "C" |} ] =
  take 10 ["D"; "B"; "C"].
Proof.
  assert (StronglySorted score_ge
    [ {| similarity_score := 6; exp_id := "D" |};
      {| similarity_score := 5; exp_id := "B" |};
      {| similarity_score := 5; exp_id := "C" |} ]) as Hs.
  { repeat constructor; unfold score_ge; cbn; by vm_compute. }
  split; [exact Hs|].
  apply (X7_sorted_group_is_kept module_globals _ Hs).
Defined.

(** ** The datastore again *)

Lemma PutModels_lookup models
    (datastore : gmap string ExplorationRecommendationsModel) k :
  PutModels models datastore !! k =
  match last (filter (λ m, model_id m = k) models) with
  | Some m => Some m
  | None => datastore !! k
  end.
Proof.
  unfold PutModels. induction models as [|m models IH] using rev_ind; [done|].
  rewrite foldl_snoc, filter_app, filter_cons, filter_nil.
  case_decide as Hk.
  - by rewrite last_snoc, Hk, lookup_insert_eq.
  - by rewrite app_nil_r, lookup_insert_ne.
Qed.

Lemma filter_same_key {A B} `{EqDecision B} (f : A → B) (l : list A) x :
  NoDup (f <$> l) → x ∈ l → filter (λ y, f y = f x) l = [x].
Proof.
  induction l as [|a l IH]; [by intros _ ?%elem_of_nil|].
  rewrite fmap_cons, NoDup_cons, filter_cons.
  intros [Ha Hnd] [->|Hin]%elem_of_cons.
  - rewrite decide_True by done. f_equal. apply filter_none, Forall_forall.
    intros r Hr Heq. apply Ha. rewrite <-Heq. by apply list_elem_of_fmap_2.
  - rewrite decide_False; [by apply IH|].
    intros Heq. apply Ha. rewrite Heq. by apply list_elem_of_fmap_2.
Qed.

(** X8: after a run that returned, every record it produced can be read
    from the datastore under its id; under an id for which no reference
    has a qualifying candidate the datastore holds what it held before the
    run, so a record left there by an earlier run is neither replaced nor
    removed. *)
Theorem X8_records_read_back_and_stale_records_stay
    (get_item_similarity : ExpSummaryModel → ExpSummaryModel → exn + Q)
    (globals : Globals) (utcnow : string → Z)
    (snapshot : list ExpSummaryModel) (t : list event) (out : RunOutput)
    (datastore : gmap string ExplorationRecommendationsModel) :
  run get_item_similarity globals utcnow snapshot = (t, inr out) →
  (∀ m, m ∈ exp_recommendations_models out →
        datastore_after out datastore !! model_id m = Some m) ∧
  (∀ k, (∀ ref c, ref ∈ snapshot → c ∈ snapshot → summary_id ref = k →
                  qualifies get_item_similarity globals ref c = false) →
        datastore_after out datastore !! k = datastore !! k).
Proof.
  intros Hrun. unfold datastore_after. split.
  - intros m Hm. rewrite PutModels_lookup, filter_same_key; [done| |done].
    rewrite (run_model_ids _ _ _ _ _ _ Hrun). apply NoDup_remove_dups.
  - intros k Hk. rewrite PutModels_lookup, filter_none; [done|].
    apply Forall_forall. intros m Hm Hid.
    assert (k ∈ model_id <$> exp_recommendations_models out) as Hin.
    { rewrite <-Hid. by apply list_elem_of_fmap_2. }
    rewrite (run_model_ids _ _ _ _ _ _ Hrun), elem_of_remove_dups in Hin.
    apply (run_keys _ _ _ _ _ _ _ Hrun) in Hin
      as (ref & c & Href & Hc & Hrk & Hq).
    by rewrite (Hk ref c Href Hc Hrk) in Hq.
Qed.

Lemma X8_records_read_back_and_stale_records_stay_witness :
  run scenario_scorer module_globals scenario_clock scenario_snapshot =
    (scenario_trace, inr scenario_output) ∧
  (∀ m, m ∈ exp_recommendations_models scenario_output →
        datastore_after scenario_output
          {[ "C" := {| model_id := "C";
                       recommended_exploration_ids := ["A"];
                       created_on := None; last_updated := None |} ]}
        !! model_id m = Some m) ∧
  (∀ k, (∀ ref c, ref ∈ scenario_snapshot → c ∈ scenario_snapshot →
                  summary_id ref = k →
                  qualifies scenario_scorer module_globals ref c = false) →
        datastore_after scenario_output
          {[ "C" := {| model_id := "C";
                       recommended_exploration_ids := ["A"];
                       created_on := None; last_updated := None |} ]}
        !! k =
        ({[ "C" := {| model_id := "C";
                      recommended_exploration_ids := ["A"];
                      created_on := None; last_updated := None |} ]}
           : gmap string ExplorationRecommendationsModel) !! k).
Proof.
  split; [vm_compute; reflexivity|].
  apply (X8_records_read_back_and_stale_records_stay scenario_scorer
           module_globals scenario_clock scenario_snapshot scenario_trace
           scenario_output).
  vm_compute; reflexivity.
Defined.

(** ** Degenerate snapshots, and runs that raise *)

Section Edge.
Context (get_item_similarity : ExpSummaryModel → ExpSummaryModel → exn + Q).
Context (globals : Globals).

Local Abbreviation process := (process get_item_similarity globals).

Lemma process_all_self ref cs :
  (∀ c, c ∈ cs → summary_id c = summary_id ref) →
  process ref cs = ([], inr tt).
Proof.
  induction cs as [|c cs IH]; intros Hall; [done|].
  rewrite process_cons_self; [|apply Hall; by left].
  apply IH. intros d Hd. apply Hall. by right.
Qed.

Lemma process_yields_sound ref cs (snapshot : list ExpSummaryModel) :
  ref ∈ snapshot → cs ⊆ snapshot →
  Forall (λ kv, sound_pair get_item_similarity globals snapshot kv.1 kv.2)
    (yields (trace (process ref cs))).
Proof.
  intros Href. induction cs as [|c cs IH]; intros Hsub; [by constructor|].
  assert (c ∈ snapshot) as Hc by (apply Hsub; by left).
  assert (cs ⊆ snapshot) as Hsub' by (intros d Hd; apply Hsub; by right).
  destruct (decide (summary_id c = summary_id ref)) as [Hid|Hid].
  - rewrite process_cons_self by done. by apply IH.
  - destruct (get_item_similarity ref c) as [e|s] eqn:Hs.
    + rewrite (process_cons_raise _ _ _ _ _ e) by done. by constructor.
    + rewrite (process_cons_score _ _ _ _ _ s) by done. unfold trace at 1; cbn.
      rewrite yields_app. apply Forall_app. split; [|by apply IH].
      destruct (Qle_bool _ s) eqn:Hle; [|by constructor].
      repeat constructor; cbn; [congruence|by apply Qle_bool_true|].
      by exists ref, c.
Qed.

(** Up to a call that raises, every call of the generator returned. *)
Lemma process_calls_returned ref cs :
  match outcome (process ref cs) with
  | inr _ => Forall (returned_call get_item_similarity) (trace (process ref cs))
  | inl e => ∃ t c, trace (process ref cs) = t ++ [ScorerCall ref c] ∧
                    get_item_similarity ref c = inl e ∧
                    Forall (returned_call get_item_similarity) t
  end.
Proof.
  induction cs as [|c cs IH]; [by constructor|].
  destruct (decide (summary_id c = summary_id ref)) as [Hid|Hid].
  - by rewrite process_cons_self.
  - destruct (get_item_similarity ref c) as [e|s] eqn:Hs.
    + rewrite (process_cons_raise _ _ _ _ _ e) by done. cbn.
      by exists [], c.
    + rewrite (process_cons_score _ _ _ _ _ s) by done.
      assert (Forall (returned_call get_item_similarity)
                (ScorerCall ref c ::
                 (if Qle_bool (SIMILARITY_SCORE_THRESHOLD globals) s
                  then [Yield (summary_id ref)
                          {| similarity_score := s; exp_id := summary_id c |}]
                  else []))) as Hhead.
      { constructor; [by exists s|].
        destruct (Qle_bool _ _); by repeat constructor. }
      revert IH. destruct (process ref cs) as [tcs [e|[]]].
      * unfold outcome, trace; cbn. intros (t & c' & -> & He & Ht).
        eexists (_ :: _ ++ t), c'. split; [|split; [done|]].
        -- by rewrite (assoc_L (++)).
        -- rewrite app_comm_cons. by apply Forall_app.
      * unfold outcome, trace; cbn. intros IH.
        rewrite app_comm_cons. by apply Forall_app.
Qed.
End Edge.

(** X9: on a snapshot whose explorations all have the same id, and so on
    an empty snapshot and on a snapshot of one exploration, the run
    returns without calling the scorer, produces no record and emits no
    result, whatever the scorer would do. *)
Theorem X9_nothing_to_compare
    (get_item_similarity : ExpSummaryModel → ExpSummaryModel → exn + Q)
    (globals : Globals) (utcnow : string → Z)
    (snapshot : list ExpSummaryModel) :
  (∀ a b, a ∈ snapshot → b ∈ snapshot → summary_id a = summary_id b) →
  run get_item_similarity globals utcnow snapshot =
    ([], inr {| exp_recommendations_models := []; job_run_results := [] |}).
Proof.
  intros Hsame.
  assert (ParDo_ComputeSimilarity get_item_similarity globals snapshot snapshot
          = ([], inr tt)) as Hp.
  { apply for_each_returns. split.
    - apply Forall_forall. intros ref Href.
      rewrite process_all_self; [done|]. intros c Hc. by apply Hsame.
    - assert (∀ (l : list ExpSummaryModel),
                l ⊆ snapshot →
                [] = mjoin ((λ x, trace (process get_item_similarity globals
                                           x snapshot)) <$> l)) as Hnil.
      { induction l as [|ref l IH]; intros Hl; [done|].
        rewrite fmap_cons. change (mjoin (?a :: ?k)) with (a ++ mjoin k).
        rewrite process_all_self.
        - apply IH. intros d Hd. apply Hl. by right.
        - intros c Hc. apply Hsame; [done|]. apply Hl. by left. }
      by apply Hnil. }
  unfold run. rewrite Hp. reflexivity.
Qed.

Lemma X9_nothing_to_compare_witness :
  (∀ a b, a ∈ [exploration "A"] → b ∈ [exploration "A"] →
          summary_id a = summary_id b) ∧
  run (λ _ _, inl "ValueError") module_globals scenario_clock
    [exploration "A"] =
    ([], inr {| exp_recommendations_models := []; job_run_results := [] |}).
Proof.
  assert (∀ a b, a ∈ [exploration "A"] → b ∈ [exploration "A"] →
                 summary_id a = summary_id b) as Hsame.
  { by intros a b ->%list_elem_of_singleton ->%list_elem_of_singleton. }
  split; [exact Hsame|].
  apply (X9_nothing_to_compare (λ _ _, inl "ValueError") module_globals
           scenario_clock [exploration "A"] Hsame).
Defined.

(** X10: every pair yielded during a run, whether the run returns or
    raises later, is sound: its key is the id of a reference of the
    snapshot, its recommended id is the id of another exploration of the
    snapshot and differs from the key, and its score is the score the
    scorer returned for the two and is at least the threshold. *)
Theorem X10_yielded_pairs_are_sound
    (get_item_similarity : ExpSummaryModel → ExpSummaryModel → exn + Q)
    (globals : Globals) (utcnow : string → Z)
    (snapshot : list ExpSummaryModel) (key : string) (value : Similarity) :
  (key, value) ∈
    yields (trace (run get_item_similarity globals utcnow snapshot)) →
  sound_pair get_item_similarity globals snapshot key value.
Proof.
  rewrite run_trace. intros Hin.
  assert (∀ (l : list ExpSummaryModel), l ⊆ snapshot →
            Forall (λ kv, sound_pair get_item_similarity globals snapshot
                            kv.1 kv.2)
              (yields (trace (ParDo_ComputeSimilarity get_item_similarity
                                globals l snapshot)))) as Hall.
  { induction l as [|ref l IH]; intros Hl; [by constructor|].
    unfold ParDo_ComputeSimilarity. rewrite for_each_cons.
    pose proof (process_yields_sound get_item_similarity globals ref snapshot
                  snapshot) as Hp.
    destruct (process _ _ ref snapshot) as [tp [e|[]]] eqn:Hproc.
    - rewrite (bind_raises _ _ _ _ eq_refl). apply Hp; [|done].
      apply Hl. by left.
    - rewrite (bind_returns _ _ _ _ eq_refl). unfold trace at 1; cbn.
      rewrite yields_app. apply Forall_app. split.
      + apply Hp; [|done]. apply Hl. by left.
      + apply IH. intros d Hd. apply Hl. by right. }
  specialize (Hall snapshot ltac:(done)). rewrite Forall_forall in Hall.
  by apply (Hall (key, value)).
Qed.

Lemma X10_yielded_pairs_are_sound_witness :
  ("A", {| similarity_score := 6; exp_id := "D" |}) ∈
    yields (trace (run scenario_scorer module_globals scenario_clock
                     scenario_snapshot)) ∧
  sound_pair scenario_scorer module_globals scenario_snapshot "A"
    {| similarity_score := 6; exp_id := "D" |}.
Proof.
  assert (("A", {| similarity_score := 6; exp_id := "D" |}) ∈
            yields (trace (run scenario_scorer module_globals scenario_clock
                             scenario_snapshot))) as Hin.
  { vm_compute. right. left. }
  split; [exact Hin|].
  apply (X10_yielded_pairs_are_sound scenario_scorer module_globals
           scenario_clock scenario_snapshot _ _ Hin).
Defined.

(** * Properties of the reader controller *)

Lemma str_truthy_spec s : str_truthy s = true ↔ s ≠ "".
Proof. unfold str_truthy. by rewrite negb_true_iff, String.eqb_neq. Qed.

Lemma recommended_set_author author system next :
  list_to_set author ⊆ recommended_set author system next.
Proof.
  unfold recommended_set. intros x Hx.
  assert (x ∈ (list_to_set (author ++ system) : gset string)) as Hin.
  { rewrite list_to_set_app_L. apply elem_of_union. by left. }
  destruct next; [apply elem_of_union; by left|done].
Qed.

Lemma recommended_set_no_system author next :
  (size (recommended_set author [] next ∖ list_to_set author) ≤ 1)%nat.
Proof.
  unfold recommended_set. rewrite app_nil_r. destruct next as [n|].
  - transitivity (size ({[ n ]} : gset string)); [|rewrite size_singleton; lia].
    apply subseteq_size. intros x [Hx Hn]%elem_of_difference.
    apply elem_of_union in Hx as [Hx|Hx]; [done|exact Hx].
  - replace (list_to_set author ∖ list_to_set author : gset string)
      with (∅ : gset string); [rewrite size_empty; lia|].
    apply set_eq. intros x. rewrite elem_of_difference.
    split; [by intros ?%elem_of_empty|by intros [? ?]].
Qed.

(** What the random choice returns: different ids, none of them
    recommended by the author, all of them stored recommendations, as many
    as there are up to the maximum. *)
Lemma sample_spec (random_shuffle : list string → list string)
    (chosen author : list string) :
  (∀ l, random_shuffle l ≡ₚ l) →
  let available : gset string := list_to_set chosen ∖ list_to_set author in
  let sample :=
    random_sample random_shuffle (elements available)
      (MAX_SYSTEM_RECOMMENDATIONS `min` length (elements available)) in
  NoDup sample ∧
  (∀ x, x ∈ sample → x ∈ chosen ∧ x ∉ author) ∧
  length sample = MAX_SYSTEM_RECOMMENDATIONS `min` size available.
Proof.
  intros Hperm available sample. unfold sample, random_sample.
  assert (NoDup (random_shuffle (elements available))) as Hnd.
  { rewrite Hperm. apply NoDup_elements. }
  split; [|split].
  - eapply sublist_NoDup; [exact Hnd|apply sublist_take].
  - intros x Hx%subseteq_take. rewrite Hperm in Hx.
    apply elem_of_elements, elem_of_difference in Hx as [Hc Ha].
    by rewrite !elem_of_list_to_set in Hc, Ha.
  - rewrite length_take, (Permutation_length (Hperm _)).
    assert (size available = length (elements available)) as -> by done.
    lia.
Qed.

Lemma recommended_set_system author system :
  NoDup system → (∀ x, x ∈ system → x ∉ author) →
  size (recommended_set author system None ∖ list_to_set author)
  = length system.
Proof.
  intros Hnd Hnot. unfold recommended_set.
  replace (list_to_set (author ++ system) ∖ list_to_set author : gset string)
    with (list_to_set system : gset string); [by apply size_list_to_set|].
  apply set_eq. intros x.
  rewrite elem_of_difference, list_to_set_app_L, elem_of_union,
    !elem_of_list_to_set.
  split.
  - intros Hx. split; [by right|by apply Hnot].
  - by intros [[?|?] ?].
Qed.
(** X13: whatever the request, the set of ids handed to the summary
    service holds every id the author recommends and at most four
    (MAX_SYSTEM_RECOMMENDATIONS) other ids. *)
Theorem X13_at_most_four_beyond_the_authors
    (Collection : Type) (json_loads : string → exn + list string)
    (get_next_exploration_id_to_complete_by_user :
       string → string → exn + option string)
    (get_collection_by_id : string → exn + Collection)
    (get_next_exploration_id_in_sequence :
       Collection → string → exn + option string)
    (get_exploration_recommendations : string → list string)
    (random_shuffle : list string → list string)
    (user_id : option string)
    (exploration_id collection_id include_system_recommendations
       stringified : string)
    (author : list string) (rendered : gset string) :
  (∀ l, random_shuffle l ≡ₚ l) →
  json_loads stringified = inr author →
  RecommendationsHandler_get Collection json_loads
    get_next_exploration_id_to_complete_by_user get_collection_by_id
    get_next_exploration_id_in_sequence get_exploration_recommendations
    random_shuffle user_id exploration_id collection_id
    include_system_recommendations stringified = Rendered rendered →
  list_to_set author ⊆ rendered ∧
  (size (rendered ∖ list_to_set author) ≤ MAX_SYSTEM_RECOMMENDATIONS)%nat.
Proof.
  intros Hperm Hjson. unfold RecommendationsHandler_get. rewrite Hjson.
  assert (∀ next,
            (size (recommended_set author [] next ∖ list_to_set author)
             ≤ MAX_SYSTEM_RECOMMENDATIONS)%nat) as Hone.
  { intros next. pose proof (recommended_set_no_system author next).
    unfold MAX_SYSTEM_RECOMMENDATIONS. lia. }
  destruct (str_truthy collection_id).
  - destruct (opt_str_truthy user_id).
    + destruct (get_next_exploration_id_to_complete_by_user _ _) as [e|next];
        [done|].
      intros Heq;
      match type of Heq with Rendered ?S = _ =>
        assert (rendered = S) as -> by congruence end; clear Heq. split; [apply recommended_set_author|apply Hone].
    + destruct (get_collection_by_id _) as [e|coll]; [done|].
      destruct (get_next_exploration_id_in_sequence _ _) as [e|next]; [done|].
      intros Heq;
      match type of Heq with Rendered ?S = _ =>
        assert (rendered = S) as -> by congruence end; clear Heq. split; [apply recommended_set_author|apply Hone].
  - destruct (str_truthy include_system_recommendations).
    + intros Heq;
      match type of Heq with Rendered ?S = _ =>
        assert (rendered = S) as -> by congruence end; clear Heq. split; [apply recommended_set_author|].
      destruct (sample_spec random_shuffle
                  (get_exploration_recommendations exploration_id) author
                  Hperm) as (Hnd & Hin & Hlen).
      rewrite recommended_set_system; [|done|intros x Hx; by apply Hin].
      rewrite Hlen. lia.
    + intros Heq;
      match type of Heq with Rendered ?S = _ =>
        assert (rendered = S) as -> by congruence end; clear Heq. split; [apply recommended_set_author|apply Hone].
Qed.

Lemma X13_at_most_four_beyond_the_authors_witness :
  (∀ l : list string, (λ l, l) l ≡ₚ l) ∧
  scenario_json_loads "[]" = inr [] ∧
  scenario_handler (stored_exploration_recommendations scenario_datastore)
    (λ l, l) "" "true" = Rendered (list_to_set ["D"; "B"]) ∧
  list_to_set [] ⊆ (list_to_set ["D"; "B"] : gset string) ∧
  (size ((list_to_set ["D"; "B"] : gset string) ∖ list_to_set [])
   ≤ MAX_SYSTEM_RECOMMENDATIONS)%nat.
Proof.
  split; [done|]. split; [reflexivity|]. split; [vm_compute; reflexivity|].
  apply (X13_at_most_four_beyond_the_authors unit scenario_json_loads
           (λ _ _, inr None) (λ _, inr tt) (λ _ _, inr None)
           (stored_exploration_recommendations scenario_datastore)
           (λ l, l) None "A" "" "true" "[]" [] (list_to_set ["D"; "B"]));
    [done|reflexivity|vm_compute; reflexivity].
Defined.

(** X15: inside a collection, or when system recommendations are not
    asked for, the response depends neither on the stored recommendations
    nor on the random choice: the recommendation store is not used. *)
Theorem X15_store_unused_in_collection_or_without_flag
    (Collection : Type) (json_loads : string → exn + list string)
    (get_next_exploration_id_to_complete_by_user :
       string → string → exn + option string)
    (get_collection_by_id : string → exn + Collection)
    (get_next_exploration_id_in_sequence :
       Collection → string → exn + option string)
    (recommendations1 recommendations2 : string → list string)
    (shuffle1 shuffle2 : list string → list string)
    (user_id : option string)
    (exploration_id collection_id include_system_recommendations
       stringified : string) :
  str_truthy collection_id = true ∨
  str_truthy include_system_recommendations = false →
  RecommendationsHandler_get Collection json_loads
    get_next_exploration_id_to_complete_by_user get_collection_by_id
    get_next_exploration_id_in_sequence recommendations1 shuffle1
    user_id exploration_id collection_id include_system_recommendations
    stringified =
  RecommendationsHandler_get Collection json_loads
    get_next_exploration_id_to_complete_by_user get_collection_by_id
    get_next_exploration_id_in_sequence recommendations2 shuffle2
    user_id exploration_id collection_id include_system_recommendations
    stringified.
Proof.
  unfold RecommendationsHandler_get.
  destruct (json_loads stringified) as [e|author]; [done|].
  destruct (str_truthy collection_id); [done|].
  by intros [?| ->].
Qed.

Lemma X15_store_unused_in_collection_or_without_flag_witness :
  (str_truthy "collection0" = true ∨ str_truthy "true" = false) ∧
  scenario_handler (stored_exploration_recommendations scenario_datastore)
    (λ l, l) "collection0" "true" =
  scenario_handler (λ _, []) reverse "collection0" "true".
Proof.
  split; [by left|].
  apply (X15_store_unused_in_collection_or_without_flag unit
           scenario_json_loads (λ _ _, inr None) (λ _, inr tt)
           (λ _ _, inr None)
           (stored_exploration_recommendations scenario_datastore) (λ _, [])
           (λ l, l) reverse None "A" "collection0" "true" "[]").
  by left.
Defined.

(** X16: the job and the handler together.  With the store filled by a
    run that returned on a snapshot with pairwise distinct ids, a request
    outside a collection for an exploration of the snapshot asks only for
    ids that the author recommends or that belong to qualifying candidates
    of that exploration; a system recommendation is never the exploration
    itself. *)
Theorem X16_handler_renders_candidates_of_the_job
    (get_item_similarity : ExpSummaryModel → ExpSummaryModel → exn + Q)
    (globals : Globals) (utcnow : string → Z)
    (snapshot : list ExpSummaryModel) (t : list event) (out : RunOutput)
    (Collection : Type) (json_loads : string → exn + list string)
    (get_next_exploration_id_to_complete_by_user :
       string → string → exn + option string)
    (get_collection_by_id : string → exn + Collection)
    (get_next_exploration_id_in_sequence :
       Collection → string → exn + option string)
    (random_shuffle : list string → list string)
    (user_id : option string) (A : ExpSummaryModel)
    (collection_id include_system_recommendations stringified : string)
    (author : list string) (rendered : gset string) :
  NoDup (summary_id <$> snapshot) →
  run get_item_similarity globals utcnow snapshot = (t, inr out) →
  A ∈ snapshot →
  (∀ l, random_shuffle l ≡ₚ l) →
  json_loads stringified = inr author →
  str_truthy collection_id = false →
  RecommendationsHandler_get Collection json_loads
    get_next_exploration_id_to_complete_by_user get_collection_by_id
    get_next_exploration_id_in_sequence
    (stored_exploration_recommendations (datastore_after out ∅))
    random_shuffle user_id (summary_id A) collection_id
    include_system_recommendations stringified = Rendered rendered →
  ∀ x, x ∈ rendered →
       x ∈ author ∨
       (x ≠ summary_id A ∧
        ∃ c, c ∈ snapshot ∧ summary_id c = x ∧
             qualifies get_item_similarity globals A c = true).
Proof.
  intros Hnd Hrun HA Hperm Hjson Hcoll. unfold RecommendationsHandler_get.
  rewrite Hjson, Hcoll.
  destruct (str_truthy include_system_recommendations).
  - intros Heq x Hx.
    match type of Heq with Rendered ?S = _ =>
      assert (rendered = S) as -> by congruence end; clear Heq.
    unfold recommended_set in Hx.
    rewrite list_to_set_app_L, elem_of_union, !elem_of_list_to_set in Hx.
    destruct Hx as [Hx|Hx]; [by left|]. right.
    apply (sample_spec random_shuffle _ author Hperm) in Hx as [Hx _].
    unfold stored_exploration_recommendations, datastore_after in Hx.
    rewrite PutModels_lookup in Hx.
    destruct (last _) as [m|] eqn:Hlast;
      [|rewrite lookup_empty in Hx; by apply elem_of_nil in Hx].
    apply last_Some_elem_of, list_elem_of_filter in Hlast as [Hid Hm].
    destruct (run_recommended_inv _ _ _ _ _ _ _ _ Hrun Hm Hx)
      as (ref & c & Href & Hc & Hrid & Hcid & Hq).
    assert (ref = A) as ->.
    { apply (same_id_eq snapshot); [done..|congruence]. }
    pose proof Hq as [Hne _]%qualifies_spec.
    split; [congruence|by exists c].
  - intros Heq x Hx.
    match type of Heq with Rendered ?S = _ =>
      assert (rendered = S) as -> by congruence end; clear Heq.
    unfold recommended_set in Hx. rewrite app_nil_r in Hx.
    left. by apply elem_of_list_to_set in Hx.
Qed.

Lemma X16_handler_renders_candidates_of_the_job_witness :
  NoDup (summary_id <$> scenario_snapshot) ∧
  run scenario_scorer module_globals scenario_clock scenario_snapshot =
    (scenario_trace, inr scenario_output) ∧
  exploration "A" ∈ scenario_snapshot ∧
  (∀ l : list string, (λ l, l) l ≡ₚ l) ∧
  scenario_json_loads "[]" = inr [] ∧
  str_truthy "" = false ∧
  scenario_handler (stored_exploration_recommendations scenario_datastore)
    (λ l, l) "" "true" = Rendered (list_to_set ["D"; "B"]) ∧
  ∀ x, x ∈ (list_to_set ["D"; "B"] : gset string) →
       x ∈ @nil string ∨
       (x ≠ summary_id (exploration "A") ∧
        ∃ c, c ∈ scenario_snapshot ∧ summary_id c = x ∧
             qualifies scenario_scorer module_globals (exploration "A") c
             = true).
Proof.
  assert (NoDup (summary_id <$> scenario_snapshot)) as Hnd
    by (apply (bool_decide_unpack _); vm_compute; exact I).
  split; [exact Hnd|]. split; [vm_compute; reflexivity|].
  split; [by left|]. split; [done|]. split; [reflexivity|].
  split; [reflexivity|]. split; [vm_compute; reflexivity|].
  apply (X16_handler_renders_candidates_of_the_job scenario_scorer
           module_globals scenario_clock scenario_snapshot scenario_trace
           scenario_output unit scenario_json_loads (λ _ _, inr None)
           (λ _, inr tt) (λ _ _, inr None) (λ l, l) None (exploration "A")
           "" "true" "[]" [] (list_to_set ["D"; "B"]));
    [exact Hnd|vm_compute; reflexivity|by left|done|reflexivity..
    |vm_compute; reflexivity].
Defined.

(** * Changing the configuration of the job *)










Section Threshold.
Context (get_item_similarity : ExpSummaryModel → ExpSummaryModel → exn + Q).
Context (globals1 globals2 : Globals).
Hypothesis threshold_le :
  (SIMILARITY_SCORE_THRESHOLD globals1 <=
   SIMILARITY_SCORE_THRESHOLD globals2)%Q.

Local Abbreviation above :=
  (λ kv : string * Similarity,
     Is_true (Qle_bool (SIMILARITY_SCORE_THRESHOLD globals2)
                (similarity_score kv.2))).




End Threshold.



(** * Runs on a runner *)

(** ** Attempts *)

Lemma retried_returns {A} n (bundle : M A) a :
  outcome bundle = inr a → retried n bundle = bundle.
Proof. intros H. destruct n; cbn; by rewrite ?H. Qed.

(** A bundle that raises raises in every attempt: its events are
    repeated, and its exception is the one that comes out. *)
Lemma retried_raises {A} n (bundle : M A) e :
  outcome bundle = inl e →
  retried n bundle = (mjoin (replicate (S n) (trace bundle)), inl e).
Proof.
  intros H. induction n as [|n IH].
  - cbn. rewrite H, app_nil_r. destruct bundle; cbn in *. by subst.
  - cbn [retried]. rewrite H, IH. done.
Qed.

Lemma retried_outcome {A} n (bundle : M A) :
  outcome (retried n bundle) = outcome bundle.
Proof.
  destruct (outcome bundle) as [e|a] eqn:H.
  - by rewrite (retried_raises _ _ e).
  - by rewrite (retried_returns _ _ a).
Qed.


Section RunOnFacts.
Context (get_item_similarity : ExpSummaryModel → ExpSummaryModel → exn + Q).
Context (globals : Globals).

Local Abbreviation process := (process get_item_similarity globals).
Local Abbreviation ParDo_ComputeSimilarity :=
  (ParDo_ComputeSimilarity get_item_similarity globals).
Local Abbreviation emitted_pair := (emitted_pair get_item_similarity globals).

(** A generator that raises went through the candidates before the
    first one on which the scorer raises, as it does when it is given
    these candidates only, called the scorer on that one, and stopped. *)
Lemma process_raises_at ref cs e :
  outcome (process ref cs) = inl e →
  ∃ before c after,
    cs = before ++ c :: after ∧
    summary_id c ≠ summary_id ref ∧
    get_item_similarity ref c = inl e ∧
    outcome (process ref before) = inr tt ∧
    process ref cs = (trace (process ref before) ++ [ScorerCall ref c], inl e).
Proof.
  induction cs as [|c cs IH]; [done|].
  destruct (decide (summary_id c = summary_id ref)) as [Hid|Hid].
  - rewrite process_cons_self by done. intros H.
    destruct (IH H) as (before & c' & after & -> & Hne & He & Hok & Heq).
    exists (c :: before), c', after.
    rewrite process_cons_self by done. done.
  - destruct (get_item_similarity ref c) as [e'|s] eqn:Hs.
    + rewrite (process_cons_raise _ _ _ _ _ e') by done. intros [= <-].
      by exists [], c, cs.
    + rewrite (process_cons_score _ _ _ _ _ s) by done.
      unfold outcome at 1; cbn. intros H.
      destruct (IH H) as (before & c' & after & -> & Hne & He & Hok & Heq).
      exists (c :: before), c', after.
      rewrite (process_cons_score _ _ _ _ _ s) by done.
      rewrite Heq. unfold trace, outcome; cbn.
      split; [done|]. split; [done|]. split; [done|]. split; [done|].
      by rewrite <-(assoc_L (++)).
Qed.

Lemma comparisons_of_app ref (l1 l2 : list ExpSummaryModel) :
  comparisons_of ref (l1 ++ l2) = comparisons_of ref l1 ++ comparisons_of ref l2.
Proof. unfold comparisons_of. by rewrite filter_app, fmap_app. Qed.

Lemma comparisons_of_cons ref c (l : list ExpSummaryModel) :
  summary_id c ≠ summary_id ref →
  comparisons_of ref (c :: l) = (ref, c) :: comparisons_of ref l.
Proof. intros H. unfold comparisons_of. by rewrite filter_cons_True. Qed.

Lemma returned_calls_spec t :
  Forall (returned_call get_item_similarity) t ↔
  ∀ r c, (r, c) ∈ scorer_calls t → ∃ s, get_item_similarity r c = inr s.
Proof.
  induction t as [|[r c|k v] t IH]; cbn.
  - split; [|by constructor]. by intros _ r c ?%elem_of_nil.
  - rewrite Forall_cons, IH. cbn. split.
    + intros [Hrc H] r' c' [[= -> ->]|Hin]%elem_of_cons; [done|by apply H].
    + intros H. split; [apply H; by left|]. intros r' c' Hin. apply H. by right.
  - rewrite Forall_cons, IH. cbn. tauto.
Qed.

Lemma process_returned ref cs :
  outcome (process ref cs) = inr tt →
  Forall (returned_call get_item_similarity) (trace (process ref cs)).
Proof.
  intros H.
  pose proof (process_calls_returned get_item_similarity globals ref cs) as Hc.
  by rewrite H in Hc.
Qed.

(** The comparison step that raises: the references before the first
    one whose generator raises were gone through, then that generator ran
    up to the call that raised.  Every call made before that call
    returned, and the calls follow the comparisons of the snapshot. *)
Lemma pardo_raises_inv pcoll side t e :
  ParDo_ComputeSimilarity pcoll side = (t, inl e) →
  ∃ attempt ref c after,
    t = attempt ++ [ScorerCall ref c] ∧
    ref ∈ pcoll ∧ c ∈ side ∧
    get_item_similarity ref c = inl e ∧
    Forall (returned_call get_item_similarity) attempt ∧
    mjoin ((λ ref, comparisons_of ref side) <$> pcoll) =
      scorer_calls attempt ++ (ref, c) :: after.
Proof.
  intros Hp.
  apply for_each_raises in Hp as (pre & x & post & tx & -> & Hpre & Hx & ->).
  destruct (process_raises_at x side e) as
    (before & c & after & -> & Hne & He & Hok & Heq); [by rewrite Hx|].
  rewrite Hx in Heq. injection Heq as ->.
  exists (mjoin ((λ x0, trace (process x0 (before ++ c :: after))) <$> pre)
          ++ trace (process x before)), x, c,
         (comparisons_of x after
          ++ mjoin ((λ ref, comparisons_of ref (before ++ c :: after))
                    <$> post)).
  split; [by rewrite (assoc_L (++))|].
  split; [apply elem_of_app; right; by left|].
  split; [apply elem_of_app; right; by left|].
  split; [done|]. split.
  - apply Forall_app. split; [|by apply process_returned].
    clear -Hpre. induction Hpre as [|r pre Hr _ IH]; [by constructor|].
    rewrite fmap_cons. change (mjoin (?a :: ?k)) with (a ++ mjoin k).
    apply Forall_app. split; [by apply process_returned|done].
  - rewrite fmap_app, fmap_cons, join_app.
    change (mjoin (?a :: ?k)) with (a ++ mjoin k).
    rewrite scorer_calls_app, scorer_calls_mjoin, <-list_fmap_compose.
    assert ((scorer_calls ∘ (λ x0, trace (process x0 (before ++ c :: after))))
              <$> pre =
            (λ ref, comparisons_of ref (before ++ c :: after)) <$> pre)
      as ->.
    { apply Forall_fmap_ext. eapply Forall_impl; [exact Hpre|].
      intros ref Href. by apply process_calls_returns. }
    rewrite (process_calls_returns get_item_similarity globals) by done.
    rewrite comparisons_of_app, comparisons_of_cons by done.
    by rewrite <-!(assoc_L (++)).
Qed.

Context (utcnow : string → Z) (runner : Runner).
Local Abbreviation run_on := (run_on get_item_similarity globals utcnow runner).

Lemma run_on_inv snapshot t out :
  run_on snapshot = (t, inr out) →
  ParDo_ComputeSimilarity snapshot snapshot = (t, inr tt) ∧
  exp_recommendations_models out =
    (λ k, _create_recommendation utcnow k
            (_sort_and_slice_similarities globals
               (arrival_order runner k (values_for k (yields t)))))
    <$> group_order runner (remove_dups ((yields t).*1)) ∧
  job_run_results out =
    (λ x, {| stdout := "SUCCESS " +:+ pretty x; stderr := "" |})
    <$> filter (λ x, 0 < x) [length (exp_recommendations_models out)].
Proof.
  unfold run_on.
  destruct (ParDo_ComputeSimilarity snapshot snapshot) as [t' [e|[]]] eqn:Hp.
  - by rewrite (retried_raises _ _ e).
  - rewrite (retried_returns _ _ tt) by done.
    unfold mbind, M_bind, mret, M_ret, trace; cbn. rewrite app_nil_r.
    intros [= <- <-]. split; [done|]. cbn. split; [|done].
    unfold GroupByKey_on. by rewrite <-!list_fmap_compose.
Qed.

(** When the comparison step raises, the run is made of its attempts
    and raises as it does. *)
Lemma run_on_raises snapshot t e :
  ParDo_ComputeSimilarity snapshot snapshot = (t, inl e) →
  run_on snapshot = (mjoin (replicate (S (retries runner)) t), inl e).
Proof.
  intros Hp. unfold run_on. rewrite (retried_raises _ _ e) by by rewrite Hp.
  by rewrite Hp.
Qed.

Lemma run_on_returns snapshot t :
  ParDo_ComputeSimilarity snapshot snapshot = (t, inr tt) →
  ∃ out, run_on snapshot = (t, inr out).
Proof.
  intros Hp. unfold run_on. rewrite (retried_returns _ _ tt) by by rewrite Hp.
  rewrite Hp. unfold mbind, M_bind, mret, M_ret; cbn. rewrite app_nil_r.
  by eexists.
Qed.

Lemma run_on_outcome_raises snapshot e :
  outcome (run_on snapshot) = inl e ↔
  outcome (ParDo_ComputeSimilarity snapshot snapshot) = inl e.
Proof.
  destruct (ParDo_ComputeSimilarity snapshot snapshot) as [t [e'|[]]] eqn:Hp.
  - rewrite (run_on_raises _ _ _ Hp). unfold outcome; cbn.
    split; by intros [= ->].
  - destruct (run_on_returns _ _ Hp) as [out ->]. unfold outcome; cbn.
    split; intros; done.
Qed.

(** A run that raises, on any runner: every attempt is the same, it ends
    with the first call of the comparisons on which the scorer raises. *)
Lemma run_on_raises_inv snapshot t e :
  run_on snapshot = (t, inl e) →
  ∃ attempt ref c after,
    t = mjoin (replicate (S (retries runner)) (attempt ++ [ScorerCall ref c])) ∧
    ref ∈ snapshot ∧ c ∈ snapshot ∧
    get_item_similarity ref c = inl e ∧
    Forall (returned_call get_item_similarity) attempt ∧
    comparisons snapshot = scorer_calls attempt ++ (ref, c) :: after.
Proof.
  intros Hrun.
  destruct (ParDo_ComputeSimilarity snapshot snapshot) as [t' [e'|[]]] eqn:Hp.
  - rewrite (run_on_raises _ _ _ Hp) in Hrun. injection Hrun as <- <-.
    apply pardo_raises_inv in Hp
      as (attempt & ref & c & after & -> & Href & Hc & He & Hall & Hcmp).
    by exists attempt, ref, c, after.
  - destruct (run_on_returns _ _ Hp) as [out Hout]. congruence.
Qed.
End RunOnFacts.

(** On the runner that takes everything in order and never runs a
    bundle again, the run is [run]. *)
Lemma run_on_in_order get_item_similarity globals utcnow snapshot :
  run_on get_item_similarity globals utcnow in_order_runner snapshot =
  run get_item_similarity globals utcnow snapshot.
Proof.
  unfold run_on, run. cbn [retries in_order_runner].
  assert (∀ m : M unit, retried 0 m = m) as -> by (intros m; cbn; by destruct (outcome m)).
  done.
Qed.

(** ** Scorer exceptions *)

(** C8: if the scorer raises for a reference and another exploration of
    the snapshot, nothing catches the exception and nothing is tried
    again.  The generator of that reference goes through the candidates
    in order; it calls the scorer once on every candidate before the
    first one on which the scorer raises, and these calls return; it
    calls the scorer on that one, and this call is its last event: the
    generator raises the exception of the scorer, without a second call
    on that pair and without going on to the candidates after it.  The
    run raises as well, on any runner: an attempt of the comparison step
    is made of calls that returned, in the order of the comparisons of
    the snapshot, followed by the first call on which the scorer raises,
    where it stops; the run is made of the attempts of the runner, all
    alike, and of nothing else, and the exception that leaves the run is
    the one that the scorer raised. *)
Theorem C8_scorer_exception_propagates
    (get_item_similarity : ExpSummaryModel → ExpSummaryModel → exn + Q)
    (utcnow : string → Z) (runner : Runner)
    (snapshot : list ExpSummaryModel)
    (ref compared : ExpSummaryModel) (e : exn) :
  ref ∈ snapshot → compared ∈ snapshot →
  summary_id compared ≠ summary_id ref →
  get_item_similarity ref compared = inl e →
  (∃ t before c after e',
     snapshot = before ++ c :: after ∧
     process get_item_similarity module_globals ref snapshot =
       (t ++ [ScorerCall ref c], inl e') ∧
     get_item_similarity ref c = inl e' ∧
     (∀ r' c', (r', c') ∈ scorer_calls t →
               ∃ s, get_item_similarity r' c' = inr s) ∧
     scorer_calls t = comparisons_of ref before ∧
     comparisons_of ref snapshot =
       scorer_calls t ++ (ref, c) :: comparisons_of ref after ∧
     yields t =
       omap (emitted_pair get_item_similarity module_globals ref) before) ∧
  (∃ attempt r0 c0 e0 after,
     run_on get_item_similarity module_globals utcnow runner snapshot =
       (mjoin (replicate (S (retries runner))
                 (attempt ++ [ScorerCall r0 c0])), inl e0) ∧
     get_item_similarity r0 c0 = inl e0 ∧
     (∀ r' c', (r', c') ∈ scorer_calls attempt →
               ∃ s, get_item_similarity r' c' = inr s) ∧
     comparisons snapshot = scorer_calls attempt ++ (r0, c0) :: after).
Proof.
  intros Href Hc Hne He.
  destruct (process get_item_similarity module_globals ref snapshot)
    as [tp [ep|[]]] eqn:Hp.
  - split.
    + destruct (process_raises_at get_item_similarity module_globals
                  ref snapshot ep)
        as (before & c & after & Hsnap & Hid & Hec & Hok & Heq);
        [by rewrite Hp|].
      exists (trace (process get_item_similarity module_globals ref before)),
             before, c, after, ep.
      split; [done|]. split; [by rewrite <-Hp|]. split; [done|].
      split; [by apply returned_calls_spec, process_returned|].
      rewrite (process_calls_returns get_item_similarity module_globals)
        by done.
      split; [done|]. split; [|by apply process_yields].
      by rewrite Hsnap, comparisons_of_app, comparisons_of_cons.
    + destruct (run_on get_item_similarity module_globals utcnow runner
                  snapshot) as [tr [er|out]] eqn:Hrun.
      * apply run_on_raises_inv in Hrun
          as (attempt & r0 & c0 & after & -> & _ & _ & He0 & Hall & Hcmp).
        exists attempt, r0, c0, er, after.
        split; [done|]. split; [done|]. split; [|done].
        by apply returned_calls_spec.
      * apply run_on_inv in Hrun as (Hpar & _).
        apply pardo_returns in Hpar as [Hall _].
        specialize (Hall ref Href). rewrite Hp in Hall. done.
  - assert (outcome (process get_item_similarity module_globals ref snapshot)
            = inr tt) as Hok by by rewrite Hp.
    destruct (proj1 (process_returns _ _ _ _) Hok compared Hc Hne) as [s Hs].
    congruence.
Qed.

Lemma C8_scorer_exception_propagates_witness :
  exploration "B" ∈ scenario_snapshot ∧ exploration "C" ∈ scenario_snapshot ∧
  summary_id (exploration "C") ≠ summary_id (exploration "B") ∧
  failing_scorer (exploration "B") (exploration "C") = inl "ValueError" ∧
  (∃ t before c after e',
     scenario_snapshot = before ++ c :: after ∧
     process failing_scorer module_globals (exploration "B")
       scenario_snapshot =
       (t ++ [ScorerCall (exploration "B") c], inl e') ∧
     failing_scorer (exploration "B") c = inl e' ∧
     (∀ r' c', (r', c') ∈ scorer_calls t →
               ∃ s, failing_scorer r' c' = inr s) ∧
     scorer_calls t = comparisons_of (exploration "B") before ∧
     comparisons_of (exploration "B") scenario_snapshot =
       scorer_calls t ++
       (exploration "B", c) :: comparisons_of (exploration "B") after ∧
     yields t =
       omap (emitted_pair failing_scorer module_globals (exploration "B"))
         before) ∧
  (∃ attempt r0 c0 e0 after,
     run_on failing_scorer module_globals scenario_clock four_attempts_runner
       scenario_snapshot =
       (mjoin (replicate (S (retries four_attempts_runner))
                 (attempt ++ [ScorerCall r0 c0])), inl e0) ∧
     failing_scorer r0 c0 = inl e0 ∧
     (∀ r' c', (r', c') ∈ scorer_calls attempt →
               ∃ s, failing_scorer r' c' = inr s) ∧
     comparisons scenario_snapshot =
       scorer_calls attempt ++ (r0, c0) :: after).
Proof.
  assert (exploration "B" ∈ scenario_snapshot) as HB by (right; left).
  assert (exploration "C" ∈ scenario_snapshot) as HC by (right; right; left).
  assert (summary_id (exploration "C") ≠ summary_id (exploration "B"))
    as Hne by (vm_compute; congruence).
  split; [done|]. split; [done|]. split; [done|]. split; [reflexivity|].
  by apply (C8_scorer_exception_propagates failing_scorer scenario_clock
              four_attempts_runner scenario_snapshot (exploration "B")
              (exploration "C") "ValueError").
Defined.

(** The run of the small corpus with the scorer that raises on (B, C), on
    the runner of four attempts: five calls in every attempt. *)
Lemma four_attempts_scorer_calls :
  scorer_calls
    (trace (run_on failing_scorer module_globals scenario_clock
              four_attempts_runner scenario_snapshot)) =
  mjoin (replicate 4
    [ (exploration "A", exploration "B"); (exploration "A", exploration "C");
      (exploration "A", exploration "D"); (exploration "B", exploration "A");
      (exploration "B", exploration "C") ]).
Proof. vm_compute. reflexivity. Qed.




(** ** Groups that arrive in another order *)

Lemma higher_scored_cons a x l :
  (higher_scored a (x :: l) ≤ S (higher_scored a l))%nat.
Proof. unfold higher_scored. rewrite filter_cons. case_decide; cbn; lia. Qed.

Lemma higher_scored_perm a l l' :
  l ≡ₚ l' → higher_scored a l = higher_scored a l'.
Proof. intros H. unfold higher_scored. by rewrite H. Qed.

(** Nothing scores higher than the head of a list in descending order. *)
Lemma higher_scored_head x l :
  Forall (score_ge x) l → higher_scored x (x :: l) = 0.
Proof.
  intros Hx. unfold higher_scored. rewrite filter_none; [done|].
  apply Forall_cons. split.
  - intros H. apply Is_true_true, negb_true_iff, Qle_bool_false in H.
    by apply Qlt_irrefl in H.
  - eapply Forall_impl; [exact Hx|]. intros c Hc H.
    apply Is_true_true, negb_true_iff, Qle_bool_false in H.
    by apply Qlt_not_le in H.
Qed.

Lemma tie_within_perm K l l' :
  l ≡ₚ l' → tie_within K l → tie_within K l'.
Proof.
  intros Hperm (a & b & Ha & Hb & Hne & Heq & Hlt).
  exists a, b. rewrite <-(higher_scored_perm a l l' Hperm).
  split; [by rewrite <-Hperm|]. split; [by rewrite <-Hperm|]. done.
Qed.

(** Two lists in descending order with the same entries start alike, as
    far as no tie decides. *)
Lemma take_sorted_untied K (s s' : list Similarity) :
  StronglySorted score_ge s → StronglySorted score_ge s' → s ≡ₚ s' →
  ¬ tie_within K s → take K s' = take K s.
Proof.
  revert s s'. induction K as [|K IH]; intros s s' Hs Hs' Hperm Htie; [done|].
  destruct s as [|x t].
  { apply Permutation_nil in Hperm. by subst. }
  destruct s' as [|x' t'].
  { symmetry in Hperm. by apply Permutation_nil in Hperm. }
  apply StronglySorted_inv in Hs as [Hst Hx], Hs' as [Hst' Hx'].
  assert (x = x') as <-.
  { destruct (decide (x = x')) as [|Hne]; [done|]. exfalso. apply Htie.
    assert (x' ∈ t) as Hin'.
    { assert (x' ∈ x :: t) as [?|?]%elem_of_cons
        by (rewrite Hperm; by left); [by subst|done]. }
    assert (x ∈ t') as Hin.
    { assert (x ∈ x' :: t') as [?|?]%elem_of_cons
        by (rewrite <-Hperm; by left); [by subst|done]. }
    rewrite Forall_forall in Hx, Hx'.
    exists x, x'. split; [by left|]. split; [by right|]. split; [done|].
    split; [apply Qle_antisym; [by apply Hx'|by apply Hx]|].
    rewrite higher_scored_head by by apply Forall_forall. lia. }
  apply Permutation_cons_inv in Hperm. cbn. f_equal.
  apply IH; [done..|].
  intros (a & b & Ha & Hb & Hne & Heq & Hlt). apply Htie.
  exists a, b. split; [by right|]. split; [by right|]. split; [done|].
  split; [done|]. pose proof (higher_scored_cons a x t). lia.
Qed.

(** The list made from a group does not depend on the order in which
    the group arrives, unless a tie decides. *)
Lemma sort_and_slice_untied globals (similarities arrived : list Similarity) :
  arrived ≡ₚ similarities →
  ¬ tie_within (MAX_RECOMMENDATIONS globals) similarities →
  _sort_and_slice_similarities globals arrived =
  _sort_and_slice_similarities globals similarities.
Proof.
  intros Hperm Htie. unfold _sort_and_slice_similarities.
  rewrite <-!fmap_take. f_equal.
  apply take_sorted_untied; [apply sorted_reverse_sorted..| |].
  - by rewrite !sorted_reverse_perm.
  - intros H. apply Htie. by apply (tie_within_perm _ _ _ (sorted_reverse_perm _)).
Qed.

Lemma higher_scored_score a b l :
  (similarity_score a == similarity_score b)%Q →
  higher_scored a l = higher_scored b l.
Proof.
  intros Heq. unfold higher_scored. f_equal. apply list_filter_iff.
  intros c.
  assert (Qle_bool (similarity_score c) (similarity_score a) =
          Qle_bool (similarity_score c) (similarity_score b)) as ->; [|done].
  apply eq_true_iff_eq. by rewrite !Qle_bool_iff, Heq.
Qed.

Lemma higher_scored_self a l : higher_scored a (a :: l) = higher_scored a l.
Proof.
  unfold higher_scored. rewrite filter_cons_False; [done|].
  intros H. apply Is_true_true, negb_true_iff, Qle_bool_false in H.
  by apply Qlt_irrefl in H.
Qed.

(** The entry that arrives first stands, after sorting, behind the
    entries with a higher score only. *)
Lemma sort_and_slice_first globals x (l arrived : list Similarity) :
  x :: arrived ≡ₚ l →
  higher_scored x l < MAX_RECOMMENDATIONS globals →
  _sort_and_slice_similarities globals (x :: arrived) !! higher_scored x l
  = Some (exp_id x).
Proof.
  intros Hperm Hlt. unfold _sort_and_slice_similarities.
  rewrite lookup_take_lt by done.
  destruct (sorted_reverse_position [] x arrived) as (s1 & s2 & Heq & Hlen).
  cbn [app] in Heq. rewrite Heq, list_lookup_fmap.
  rewrite list_lookup_middle; [done|].
  rewrite Hlen, filter_nil. cbn [length plus].
  by rewrite <-(higher_scored_perm x _ _ Hperm), higher_scored_self.
Qed.

(** A tie that decides does change the list: when two entries with
    different ids have the same score and fewer than the maximum have a
    higher score, the group can arrive in two orders that give two
    different lists. *)
Lemma deciding_tie_changes_the_list globals (l : list Similarity) a b :
  a ∈ l → b ∈ l → exp_id a ≠ exp_id b →
  (similarity_score a == similarity_score b)%Q →
  higher_scored a l < MAX_RECOMMENDATIONS globals →
  ∃ arrived1 arrived2,
    arrived1 ≡ₚ l ∧ arrived2 ≡ₚ l ∧
    _sort_and_slice_similarities globals arrived1 ≠
    _sort_and_slice_similarities globals arrived2.
Proof.
  intros [la Ha]%elem_of_Permutation [lb Hb]%elem_of_Permutation Hne Heq Hlt.
  exists (a :: la), (b :: lb). split; [done|]. split; [done|].
  intros Hsame.
  pose proof (sort_and_slice_first globals a l la (symmetry Ha) Hlt) as H1.
  assert (higher_scored b l < MAX_RECOMMENDATIONS globals) as Hlt'
    by by rewrite <-(higher_scored_score a b l Heq).
  pose proof (sort_and_slice_first globals b l lb (symmetry Hb) Hlt') as H2.
  rewrite <-(higher_scored_score a b l Heq), <-Hsame, H1 in H2.
  congruence.
Qed.

(** Upserting records with different ids, in any order. *)
Lemma upsert_perm {V} (cs cs' : list (string * V)) (d : gmap string (string * V)) :
  NoDup (cs.*1) → cs ≡ₚ cs' →
  foldl (λ d c, <[c.1 := c]> d) d cs = foldl (λ d c, <[c.1 := c]> d) d cs'.
Proof.
  intros Hnd Hperm. apply map_eq. intros k. rewrite !upsert_lookup.
  assert (filter (λ c : string * V, c.1 = k) cs' =
          filter (λ c : string * V, c.1 = k) cs) as ->; [|done].
  assert (filter (λ c : string * V, c.1 = k) cs' ≡ₚ
          filter (λ c : string * V, c.1 = k) cs) as Hf by by rewrite Hperm.
  assert (NoDup ((filter (λ c : string * V, c.1 = k) cs).*1)) as Hndf.
  { assert ((filter (λ c : string * V, c.1 = k) cs).*1 `sublist_of` cs.*1)
      as Hsub by apply fmap_sublist, sublist_filter.
    by eapply sublist_NoDup. }
  assert (Forall (λ c : string * V, c.1 = k)
            (filter (λ c : string * V, c.1 = k) cs)) as Hall.
  { apply Forall_forall. by intros c [? _]%list_elem_of_filter. }
  destruct (filter (λ c : string * V, c.1 = k) cs) as [|a [|b f]].
  - by apply Permutation_nil_r in Hf.
  - by apply Permutation_singleton_r in Hf.
  - exfalso. apply Forall_cons in Hall as [Ha Hall].
    apply Forall_cons in Hall as [Hb _].
    rewrite !fmap_cons in Hndf. apply NoDup_cons in Hndf as [Hndf _].
    apply Hndf. rewrite Ha, Hb. by left.
Qed.

Lemma PutModels_perm models1 models2 datastore :
  NoDup (model_id <$> models1) →
  record_content <$> models1 ≡ₚ record_content <$> models2 →
  record_content <$> PutModels models2 (PutModels models1 datastore) =
  record_content <$> PutModels models1 datastore.
Proof.
  intros Hnd Hperm. rewrite !PutModels_content.
  rewrite <-(upsert_perm (record_content <$> models1)
               (record_content <$> models2)); [apply upsert_idempotent| |done].
  by rewrite <-list_fmap_compose.
Qed.

Section Reruns.
Context (get_item_similarity : ExpSummaryModel → ExpSummaryModel → exn + Q).
Context (globals : Globals).

Local Abbreviation candidates := (candidates get_item_similarity globals).

(** The records of a run that returns, on any runner, from the
    candidates of the snapshot. *)
Lemma run_on_records utcnow runner snapshot t out :
  run_on get_item_similarity globals utcnow runner snapshot = (t, inr out) →
  exp_recommendations_models out =
    (λ k, _create_recommendation utcnow k
            (_sort_and_slice_similarities globals
               (arrival_order runner k (candidates snapshot k))))
    <$> group_order runner
          (remove_dups ((emitted get_item_similarity globals snapshot).*1)) ∧
  job_run_results out =
    (λ x, {| stdout := "SUCCESS " +:+ pretty x; stderr := "" |})
    <$> filter (λ x, 0 < x) [length (exp_recommendations_models out)].
Proof.
  intros (Hp & Hm & Hr)%run_on_inv. split; [|done].
  apply pardo_returns in Hp as [_ Hy]. by rewrite Hm, Hy.
Qed.

Lemma run_on_record_ids utcnow runner snapshot t out :
  lawful runner →
  run_on get_item_similarity globals utcnow runner snapshot = (t, inr out) →
  model_id <$> exp_recommendations_models out ≡ₚ
    remove_dups ((emitted get_item_similarity globals snapshot).*1).
Proof.
  intros [Hkeys _] [-> _]%run_on_records.
  rewrite <-list_fmap_compose. etrans; [|apply Hkeys].
  apply reflexive_eq, list_fmap_id.
Qed.

Lemma run_on_record_inv utcnow runner snapshot t out m :
  run_on get_item_similarity globals utcnow runner snapshot = (t, inr out) →
  m ∈ exp_recommendations_models out →
  recommended_exploration_ids m =
    _sort_and_slice_similarities globals
      (arrival_order runner (model_id m) (candidates snapshot (model_id m))).
Proof.
  intros [-> _]%run_on_records (k & -> & _)%list_elem_of_fmap. done.
Qed.

Lemma run_on_contents utcnow runner snapshot t out :
  lawful runner →
  (∀ k, ¬ tie_within (MAX_RECOMMENDATIONS globals) (candidates snapshot k)) →
  run_on get_item_similarity globals utcnow runner snapshot = (t, inr out) →
  record_content <$> exp_recommendations_models out ≡ₚ
    (λ k, (k, _sort_and_slice_similarities globals (candidates snapshot k)))
    <$> remove_dups ((emitted get_item_similarity globals snapshot).*1).
Proof.
  intros [Hkeys Hvalues] Htie [-> _]%run_on_records.
  rewrite <-list_fmap_compose.
  trans ((λ k, (k, _sort_and_slice_similarities globals
                     (candidates snapshot k)))
         <$> group_order runner
               (remove_dups
                  ((emitted get_item_similarity globals snapshot).*1)));
    [|by rewrite Hkeys].
  apply reflexive_eq, list_fmap_ext. intros _ k _. cbn.
  unfold record_content; cbn. f_equal.
  by apply sort_and_slice_untied.
Qed.
End Reruns.

Lemma lawful_in_order : lawful in_order_runner.
Proof. by split. Qed.

Lemma lawful_reversing : lawful reversing_runner.
Proof. split; [done|]. intros k l. apply reverse_Permutation. Qed.

(** C7 does not hold as it is stated.  On three explorations that all
    score 5 against each other, the run in which every group arrives in
    the order of emission makes the record of A list B before C, and the
    run on a runner that hands over a group in the opposite order makes
    it list C before B: [sorted] keeps entries with equal scores in the
    order of arrival.  Both runs return, on the same snapshot and with
    the same scorer, and their sets of records differ. *)
Lemma C7_tied_candidates_counterexample :
  lawful reversing_runner ∧
  ∃ out1 out2,
    outcome (run tied_scorer module_globals scenario_clock tied_snapshot)
      = inr out1 ∧
    outcome (run_on tied_scorer module_globals scenario_clock
               reversing_runner tied_snapshot) = inr out2 ∧
    ("A", ["B"; "C"]) ∈ record_content <$> exp_recommendations_models out1 ∧
    ("A", ["C"; "B"]) ∈ record_content <$> exp_recommendations_models out2 ∧
    ¬ (record_content <$> exp_recommendations_models out1 ≡ₚ
       record_content <$> exp_recommendations_models out2).
Proof.
  split; [apply lawful_reversing|].
  eexists _, _. split; [reflexivity|]. split; [reflexivity|].
  split; [vm_compute; by left|]. split; [vm_compute; by left|].
  intros Hperm.
  assert (("A", ["B"; "C"]) ∈
            record_content <$> exp_recommendations_models
              (match outcome (run_on tied_scorer module_globals scenario_clock
                                reversing_runner tied_snapshot) with
               | inr out => out
               | inl _ => {| exp_recommendations_models := [];
                             job_run_results := [] |}
               end)) as Hin.
  { rewrite <-Hperm. vm_compute. by left. }
  match type of Hin with
  | _ ∈ ?l => let l' := eval vm_compute in l in change l with l' in Hin
  end.
  rewrite !elem_of_cons, elem_of_nil in Hin.
  destruct Hin as [Hin|[Hin|[Hin|[]]]]; discriminate Hin.
Qed.

(** C7, amended: two runs on the same snapshot with the same scorer, at
    different times and on runners that hand over the groups and their
    values in different orders, raise together, with the same exception,
    or return together.  When they return, their records have the same
    ids, one record for each id, and they emit the same result; the
    records of an id hold the same ordered list unless a tie decides for
    that id: two different candidates of the reference have the same score
    and fewer than MAX_RECOMMENDATIONS candidates score higher.  When no
    tie decides for any id the two sets of records are the same, and
    writing the records of the second run over those of the first changes
    neither the ids nor the lists held by the datastore. *)
Theorem C7_rerun_gives_same_records_up_to_ties
    (get_item_similarity : ExpSummaryModel → ExpSummaryModel → exn + Q)
    (utcnow1 utcnow2 : string → Z) (runner1 runner2 : Runner)
    (snapshot : list ExpSummaryModel) :
  lawful runner1 → lawful runner2 →
  let run1 :=
    run_on get_item_similarity module_globals utcnow1 runner1 snapshot in
  let run2 :=
    run_on get_item_similarity module_globals utcnow2 runner2 snapshot in
  let decisive_tie k :=
    tie_within (MAX_RECOMMENDATIONS module_globals)
      (candidates get_item_similarity module_globals snapshot k) in
  match outcome run1, outcome run2 with
  | inr out1, inr out2 =>
      model_id <$> exp_recommendations_models out1 ≡ₚ
        model_id <$> exp_recommendations_models out2 ∧
      NoDup (model_id <$> exp_recommendations_models out1) ∧
      NoDup (model_id <$> exp_recommendations_models out2) ∧
      job_run_results out1 = job_run_results out2 ∧
      (∀ m1 m2,
         m1 ∈ exp_recommendations_models out1 →
         m2 ∈ exp_recommendations_models out2 →
         model_id m1 = model_id m2 →
         ¬ decisive_tie (model_id m1) →
         recommended_exploration_ids m1 = recommended_exploration_ids m2) ∧
      ((∀ k, ¬ decisive_tie k) →
       record_content <$> exp_recommendations_models out1 ≡ₚ
         record_content <$> exp_recommendations_models out2 ∧
       ∀ datastore,
         record_content <$>
           datastore_after out2 (datastore_after out1 datastore)
         = record_content <$> datastore_after out1 datastore)
  | inl e1, inl e2 => e1 = e2
  | _, _ => False
  end.
Proof.
  intros Hl1 Hl2 run1 run2 decisive_tie. unfold run1, run2.
  pose proof (run_on_outcome_raises get_item_similarity module_globals
                utcnow1 runner1 snapshot) as Hr1.
  pose proof (run_on_outcome_raises get_item_similarity module_globals
                utcnow2 runner2 snapshot) as Hr2.
  destruct (run_on get_item_similarity module_globals utcnow1 runner1 snapshot)
    as [t1 [e1|out1]] eqn:H1,
    (run_on get_item_similarity module_globals utcnow2 runner2 snapshot)
    as [t2 [e2|out2]] eqn:H2; unfold outcome in *; cbn in *.
  - pose proof (proj1 (Hr1 e1) eq_refl) as He1.
    pose proof (proj1 (Hr2 e2) eq_refl) as He2. congruence.
  - pose proof (proj1 (Hr1 e1) eq_refl) as He1.
    apply run_on_inv in H2 as [Hp _]. rewrite Hp in He1. done.
  - pose proof (proj1 (Hr2 e2) eq_refl) as He2.
    apply run_on_inv in H1 as [Hp _]. rewrite Hp in He2. done.
  - clear Hr1 Hr2.
    pose proof (run_on_record_ids _ _ _ _ _ _ _ Hl1 H1) as Hids1.
    pose proof (run_on_record_ids _ _ _ _ _ _ _ Hl2 H2) as Hids2.
    assert (model_id <$> exp_recommendations_models out1 ≡ₚ
            model_id <$> exp_recommendations_models out2) as Hids
      by by rewrite Hids1, Hids2.
    assert (NoDup (model_id <$> exp_recommendations_models out1)) as Hnd1.
    { rewrite Hids1. apply NoDup_remove_dups. }
    split; [done|]. split; [done|]. split; [by rewrite <-Hids|]. split.
    { pose proof (run_on_records _ _ _ _ _ _ _ H1) as [_ ->].
      pose proof (run_on_records _ _ _ _ _ _ _ H2) as [_ ->].
      apply Permutation_length in Hids. rewrite !length_fmap in Hids.
      by rewrite Hids. }
    split.
    + intros m1 m2 Hm1 Hm2 Hid Htie.
      rewrite (run_on_record_inv _ _ _ _ _ _ _ _ H1 Hm1).
      rewrite (run_on_record_inv _ _ _ _ _ _ _ _ H2 Hm2).
      rewrite <-Hid.
      rewrite (sort_and_slice_untied module_globals
                 (candidates get_item_similarity module_globals snapshot
                    (model_id m1))
                 (arrival_order runner1 _ _)); [|apply Hl1|done].
      symmetry. apply sort_and_slice_untied; [apply Hl2|done].
    + intros Htie.
      assert (record_content <$> exp_recommendations_models out1 ≡ₚ
              record_content <$> exp_recommendations_models out2) as Hcont.
      { rewrite (run_on_contents _ _ _ _ _ _ _ Hl1 Htie H1).
        by rewrite (run_on_contents _ _ _ _ _ _ _ Hl2 Htie H2). }
      split; [done|]. intros db. unfold datastore_after.
      by apply PutModels_perm.
Qed.

Lemma C7_rerun_gives_same_records_up_to_ties_witness :
  lawful in_order_runner ∧ lawful reversing_runner ∧
  let run1 :=
    run_on scenario_scorer module_globals scenario_clock in_order_runner
      scenario_snapshot in
  let run2 :=
    run_on scenario_scorer module_globals (λ _, 1%Z) reversing_runner
      scenario_snapshot in
  let decisive_tie k :=
    tie_within (MAX_RECOMMENDATIONS module_globals)
      (candidates scenario_scorer module_globals scenario_snapshot k) in
  match outcome run1, outcome run2 with
  | inr out1, inr out2 =>
      model_id <$> exp_recommendations_models out1 ≡ₚ
        model_id <$> exp_recommendations_models out2 ∧
      NoDup (model_id <$> exp_recommendations_models out1) ∧
      NoDup (model_id <$> exp_recommendations_models out2) ∧
      job_run_results out1 = job_run_results out2 ∧
      (∀ m1 m2,
         m1 ∈ exp_recommendations_models out1 →
         m2 ∈ exp_recommendations_models out2 →
         model_id m1 = model_id m2 →
         ¬ decisive_tie (model_id m1) →
         recommended_exploration_ids m1 = recommended_exploration_ids m2) ∧
      ((∀ k, ¬ decisive_tie k) →
       record_content <$> exp_recommendations_models out1 ≡ₚ
         record_content <$> exp_recommendations_models out2 ∧
       ∀ datastore,
         record_content <$>
           datastore_after out2 (datastore_after out1 datastore)
         = record_content <$> datastore_after out1 datastore)
  | inl e1, inl e2 => e1 = e2
  | _, _ => False
  end.
Proof.
  split; [apply lawful_in_order|]. split; [apply lawful_reversing|].
  apply (C7_rerun_gives_same_records_up_to_ties scenario_scorer
           scenario_clock (λ _, 1%Z) in_order_runner reversing_runner
           scenario_snapshot lawful_in_order lawful_reversing).
Defined.

(** * The decorated handlers *)

(** What the method of the exploration page answers. *)
Lemma ExplorationPage_get_spec
    (Exploration Collection : Type)
    (get_exploration_by_id : string → option Z → option Exploration)
    (get_collection_by_id : string → option Collection)
    (exploration_id : string) (v : option Z) (iframed : option bool)
    (parent collection_id : option string) :
  let served :=
    is_Some (get_exploration_by_id exploration_id v) ∧
    (opt_str_truthy parent = true ∨
     opt_str_truthy collection_id = false ∨
     ∃ cid, collection_id = Some cid ∧ is_Some (get_collection_by_id cid)) in
  let page :=
    ExplorationPage_get Exploration Collection get_exploration_by_id
      get_collection_by_id exploration_id v iframed parent collection_id in
  (page = Rendered "exploration-player-page.mainpage.html" ↔
   default false iframed = false ∧ served) ∧
  (page = PageNotFoundException ↔ default false iframed = false ∧ ¬ served) ∧
  ((∃ url, page = Redirected url) ↔ default false iframed = true).
Proof.
  intros served page.
  unfold page, served, ExplorationPage_get, _does_exploration_exist.
  destruct (default false iframed);
    [|destruct (get_exploration_by_id exploration_id v) as [ex|];
      [destruct (opt_str_truthy parent);
        [|destruct collection_id as [cid|];
          [cbn; destruct (str_truthy cid);
           [destruct (get_collection_by_id cid) as [coll|] eqn:Hcoll|]|]]|]];
    cbn; unfold is_Some, not; repeat split; intros;
    repeat match goal with
      | H : _ ∧ _ |- _ => destruct H
      | H : _ ∨ _ |- _ => destruct H
      | H : ∃ _, _ |- _ => destruct H
      end;
    simplify_eq; try done; eauto 8;
    try (exfalso; match goal with H : _ → False |- _ => apply H end; eauto 8).
Qed.

(** X12: when the access decorator hands the request to the method and
    answers with what the method answers, the exploration page is
    rendered exactly when the request is not iframed, the exploration
    exists at the requested version, and either a parent is given, or no
    collection id is given (or an empty one), or the collection exists; a
    request that is not iframed and fails this test ends in
    [PageNotFoundException]; an iframed request is redirected, whether or
    not the exploration exists.  Nothing is said of a request that the
    decorator answers in another way. *)
Theorem X12_exploration_page_served_iff
    (Exploration Collection : Type)
    (can_play_exploration : ∀ A, (string → response A) → string → response A)
    (get_exploration_by_id : string → option Z → option Exploration)
    (get_collection_by_id : string → option Collection)
    (exploration_id : string) (v : option Z) (iframed : option bool)
    (parent collection_id : option string) :
  lets_through can_play_exploration
    (λ exploration_id,
       ExplorationPage_get Exploration Collection get_exploration_by_id
         get_collection_by_id exploration_id v iframed parent collection_id)
    exploration_id →
  let served :=
    is_Some (get_exploration_by_id exploration_id v) ∧
    (opt_str_truthy parent = true ∨
     opt_str_truthy collection_id = false ∨
     ∃ cid, collection_id = Some cid ∧ is_Some (get_collection_by_id cid)) in
  let page :=
    ExplorationPage_get_decorated Exploration Collection can_play_exploration
      get_exploration_by_id get_collection_by_id exploration_id v iframed
      parent collection_id in
  (page = Rendered "exploration-player-page.mainpage.html" ↔
   default false iframed = false ∧ served) ∧
  (page = PageNotFoundException ↔ default false iframed = false ∧ ¬ served) ∧
  ((∃ url, page = Redirected url) ↔ default false iframed = true).
Proof.
  intros Hthrough served page. unfold page, ExplorationPage_get_decorated.
  unfold lets_through in Hthrough. rewrite Hthrough.
  apply ExplorationPage_get_spec.
Qed.

Lemma X12_exploration_page_served_iff_witness :
  lets_through permissive_decorator
    (λ exploration_id,
       ExplorationPage_get unit unit
         (λ i _, if String.eqb i "A" then Some tt else None) (λ _, None)
         exploration_id None None None None)
    "A" ∧
  let served :=
    is_Some (if String.eqb "A" "A" then Some tt else None) ∧
    (opt_str_truthy None = true ∨
     opt_str_truthy None = false ∨
     ∃ cid, @None string = Some cid ∧ is_Some (@None unit)) in
  let page := scenario_page permissive_decorator None in
  (page = Rendered "exploration-player-page.mainpage.html" ↔
   default false None = false ∧ served) ∧
  (page = PageNotFoundException ↔ default false None = false ∧ ¬ served) ∧
  ((∃ url, page = Redirected url) ↔ default false None = true).
Proof.
  split; [reflexivity|].
  apply (X12_exploration_page_served_iff unit unit permissive_decorator
           (λ i _, if String.eqb i "A" then Some tt else None) (λ _, None)
           "A" None None None None).
  reflexivity.
Defined.

(** What the method of the recommendations handler answers outside a
    collection when system recommendations are asked for. *)
Lemma RecommendationsHandler_get_system
    (Collection : Type) (json_loads : string → exn + list string)
    (get_next_exploration_id_to_complete_by_user :
       string → string → exn + option string)
    (get_collection_by_id : string → exn + Collection)
    (get_next_exploration_id_in_sequence :
       Collection → string → exn + option string)
    (get_exploration_recommendations : string → list string)
    (random_shuffle : list string → list string)
    (user_id : option string)
    (exploration_id collection_id include_system_recommendations
       stringified : string)
    (author : list string) :
  (∀ l, random_shuffle l ≡ₚ l) →
  json_loads stringified = inr author →
  str_truthy collection_id = false →
  str_truthy include_system_recommendations = true →
  ∃ rendered,
    RecommendationsHandler_get Collection json_loads
      get_next_exploration_id_to_complete_by_user get_collection_by_id
      get_next_exploration_id_in_sequence get_exploration_recommendations
      random_shuffle user_id exploration_id collection_id
      include_system_recommendations stringified = Rendered rendered ∧
    list_to_set author ⊆ rendered ∧
    (∀ x, x ∈ rendered →
          x ∈ author ∨ x ∈ get_exploration_recommendations exploration_id) ∧
    size (rendered ∖ list_to_set author) =
      MAX_SYSTEM_RECOMMENDATIONS `min`
      size (list_to_set (get_exploration_recommendations exploration_id)
            ∖ list_to_set author : gset string).
Proof.
  intros Hperm Hjson Hcoll Hincl. unfold RecommendationsHandler_get.
  rewrite Hjson, Hcoll, Hincl.
  destruct (sample_spec random_shuffle
              (get_exploration_recommendations exploration_id) author Hperm)
    as (Hnd & Hin & Hlen).
  eexists. split; [reflexivity|].
  split; [apply recommended_set_author|]. split.
  - intros x Hx. unfold recommended_set in Hx.
    rewrite list_to_set_app_L, elem_of_union, !elem_of_list_to_set in Hx.
    destruct Hx as [Hx|Hx]; [by left|]. right. by apply Hin.
  - rewrite recommended_set_system; [done|done|].
    intros x Hx. by apply Hin.
Qed.

(** X14: take a request outside a collection that asks for system
    recommendations, whose parameter of author recommendations decodes to
    a list of ids, and which the access decorator hands to the method,
    answering with what the method answers.  If the handler renders, the
    ids whose summaries it asks for are the author's ids and stored
    recommendations of the exploration that the author does not already
    recommend: as many of them as there are, up to four.  Nothing is said
    of a request that the decorator answers in another way, of a parameter
    that does not decode to a list of ids, or of a handler that does not
    render. *)
Theorem X14_system_recommendations_fill_up_to_four
    (Collection : Type)
    (can_play_exploration : ∀ A, (string → response A) → string → response A)
    (json_loads : string → exn + list string)
    (get_next_exploration_id_to_complete_by_user :
       string → string → exn + option string)
    (get_collection_by_id : string → exn + Collection)
    (get_next_exploration_id_in_sequence :
       Collection → string → exn + option string)
    (get_exploration_recommendations : string → list string)
    (random_shuffle : list string → list string)
    (user_id : option string)
    (exploration_id collection_id include_system_recommendations
       stringified : string)
    (author : list string) (rendered : gset string) :
  lets_through can_play_exploration
    (λ exploration_id,
       RecommendationsHandler_get Collection json_loads
         get_next_exploration_id_to_complete_by_user get_collection_by_id
         get_next_exploration_id_in_sequence get_exploration_recommendations
         random_shuffle user_id exploration_id collection_id
         include_system_recommendations stringified)
    exploration_id →
  (∀ l, random_shuffle l ≡ₚ l) →
  json_loads stringified = inr author →
  str_truthy collection_id = false →
  str_truthy include_system_recommendations = true →
  RecommendationsHandler_get_decorated Collection can_play_exploration
    json_loads get_next_exploration_id_to_complete_by_user
    get_collection_by_id get_next_exploration_id_in_sequence
    get_exploration_recommendations random_shuffle user_id exploration_id
    collection_id include_system_recommendations stringified
    = Rendered rendered →
  list_to_set author ⊆ rendered ∧
  (∀ x, x ∈ rendered →
        x ∈ author ∨ x ∈ get_exploration_recommendations exploration_id) ∧
  size (rendered ∖ list_to_set author) =
    MAX_SYSTEM_RECOMMENDATIONS `min`
    size (list_to_set (get_exploration_recommendations exploration_id)
          ∖ list_to_set author : gset string).
Proof.
  intros Hthrough Hperm Hjson Hcoll Hincl.
  unfold RecommendationsHandler_get_decorated.
  unfold lets_through in Hthrough. rewrite Hthrough.
  destruct (RecommendationsHandler_get_system Collection json_loads
              get_next_exploration_id_to_complete_by_user get_collection_by_id
              get_next_exploration_id_in_sequence
              get_exploration_recommendations random_shuffle user_id
              exploration_id collection_id include_system_recommendations
              stringified author Hperm Hjson Hcoll Hincl)
    as (rendered' & -> & Hspec).
  intros Heq. by assert (rendered = rendered') as -> by congruence.
Qed.

Lemma X14_system_recommendations_fill_up_to_four_witness :
  lets_through permissive_decorator
    (λ exploration_id,
       RecommendationsHandler_get unit scenario_json_loads
         (λ _ _, inr None) (λ _, inr tt) (λ _ _, inr None)
         (stored_exploration_recommendations scenario_datastore)
         (λ l, l) None exploration_id "" "true" "[]")
    "A" ∧
  (∀ l : list string, (λ l, l) l ≡ₚ l) ∧
  scenario_json_loads "[]" = inr [] ∧
  str_truthy "" = false ∧
  str_truthy "true" = true ∧
  RecommendationsHandler_get_decorated unit permissive_decorator
    scenario_json_loads (λ _ _, inr None) (λ _, inr tt) (λ _ _, inr None)
    (stored_exploration_recommendations scenario_datastore)
    (λ l, l) None "A" "" "true" "[]"
    = Rendered (list_to_set ["D"; "B"]) ∧
  list_to_set [] ⊆ (list_to_set ["D"; "B"] : gset string) ∧
  (∀ x, x ∈ (list_to_set ["D"; "B"] : gset string) →
        x ∈ @nil string ∨
        x ∈ stored_exploration_recommendations scenario_datastore "A") ∧
  size ((list_to_set ["D"; "B"] : gset string) ∖ list_to_set []) =
    MAX_SYSTEM_RECOMMENDATIONS `min`
    size (list_to_set
            (stored_exploration_recommendations scenario_datastore "A")
          ∖ list_to_set [] : gset string).
Proof.
  split; [reflexivity|]. split; [done|]. split; [reflexivity|].
  split; [reflexivity|]. split; [reflexivity|].
  split; [vm_compute; reflexivity|].
  apply (X14_system_recommendations_fill_up_to_four unit permissive_decorator
           scenario_json_loads (λ _ _, inr None) (λ _, inr tt)
           (λ _ _, inr None)
           (stored_exploration_recommendations scenario_datastore)
           (λ l, l) None "A" "" "true" "[]" [] (list_to_set ["D"; "B"]));
    [reflexivity|done|reflexivity|reflexivity|reflexivity|
     vm_compute; reflexivity].
Defined.
